(** * Target resolution of semgrep: [semgrep/target_manager.py]

    A shallow embedding of the module that decides which files are handed to
    the analysis engine for a language, and the properties of its pipeline:
    language-to-extension lookup, lexical target resolution, directory
    expansion through [find] or [git ls-files], ancestor-or-self glob
    filtering and the per-language cache of [TargetManager].

    Layout:
    - [pystr], [fnmatch], [pathlib], [subprocess]: the parts of the Python
      standard library the module calls, modelled as far as it uses them;
    - the module itself, function by function, under the names it has in the
      source;
    - the properties. *)

From Stdlib Require Import Ascii.
From stdpp Require Import gmap strings list fin_maps.

(** ** Python [str] operations used by the module *)

Module pystr.

(** [s.split(sep)] for a one-character separator: never empty, and
    [""] splits to [[""]]. *)
Fixpoint split (sep : ascii) (s : string) : list string :=
  match s with
  | EmptyString => [EmptyString]
  | String c s' =>
      if decide (c = sep) then EmptyString :: split sep s'
      else match split sep s' with
           | [] => [String c EmptyString]
           | w :: ws => String c w :: ws
           end
  end.

(** [sep.join(l)] *)
Fixpoint join (sep : string) (l : list string) : string :=
  match l with
  | [] => EmptyString
  | [w] => w
  | w :: ws => w +:+ sep +:+ join sep ws
  end.

(** The characters [str.strip()] removes, among the first 128 code
    points: TAB, LF, VT, FF, CR, FS, GS, RS, US and space. *)
Definition isspace (c : ascii) : bool :=
  match c with
  | "009" | "010" | "011" | "012" | "013"
  | "028" | "029" | "030" | "031" | " " => true
  | _ => false
  end%char.

Fixpoint lstrip_while (f : ascii → bool) (s : string) : string :=
  match s with
  | EmptyString => EmptyString
  | String c s' => if f c then lstrip_while f s' else s
  end.

Definition lstrip (s : string) : string := lstrip_while isspace s.
Definition rstrip (s : string) : string :=
  String.rev (lstrip_while isspace (String.rev s)).
(** [s.strip()] *)
Definition strip (s : string) : string := rstrip (lstrip s).

(** Truth value of a string: [if output:] *)
Definition truthy (s : string) : bool :=
  match s with EmptyString => false | _ => true end.

End pystr.

(** ** [fnmatch.fnmatchcase]: shell-style matching of one name *)

Module fnmatch.

(** One element of a bracket expression: a character or a range. *)
Inductive tok :=
| TStar                                   (* [*]  *)
| TAny                                    (* [?]  *)
| TClass (neg : bool) (items : list (ascii * ascii))  (* [[seq]], [[!seq]] *)
| TLit (c : ascii).

(** The items of a bracket expression, read left to right: [a-b] is a
    range when both ends are present, any other character stands for
    itself. *)
Fixpoint items (s : list ascii) : list (ascii * ascii) :=
  match s with
  | [] => []
  | c :: rest =>
      match rest with
      | "-"%char :: hi :: rest' =>
          (* the recursive call is on a subterm of [rest] *)
          (c, hi) :: match rest with
                     | _ :: _ :: r => items r
                     | _ => []
                     end
      | _ => (c, c) :: items rest
      end
  end.

Definition char_le (a b : ascii) : bool := (N_of_ascii a <=? N_of_ascii b)%N.

Definition in_items (c : ascii) (its : list (ascii * ascii)) : bool :=
  existsb (λ r, char_le (fst r) c && char_le c (snd r)) its.

(** Where the bracket expression opened just before [s] closes: the
    characters up to the closing bracket and the rest of the pattern.
    A [!] and then a [\]] right after the opening bracket belong to the
    expression. *)
Fixpoint upto_close (s : string) : option (list ascii * string) :=
  match s with
  | EmptyString => None
  | String c s' =>
      if decide (c = "]"%char) then Some ([], s')
      else '(stuff, rest) ← upto_close s'; Some (c :: stuff, rest)
  end.

Definition bracket (s : string) : option (list ascii * string) :=
  match s with
  | String "!" (String "]" s') =>
      '(stuff, rest) ← upto_close s'; Some ("!"%char :: "]"%char :: stuff, rest)
  | String "!" s' =>
      '(stuff, rest) ← upto_close s'; Some ("!"%char :: stuff, rest)
  | String "]" s' =>
      '(stuff, rest) ← upto_close s'; Some ("]"%char :: stuff, rest)
  | _ => upto_close s
  end.

Definition class_of (stuff : list ascii) : tok :=
  match stuff with
  | "!"%char :: rest => TClass true (items rest)
  | _ => TClass false (items stuff)
  end.

(** The pattern as a list of tokens, as [fnmatch.translate] reads it; an
    opening bracket that is never closed stands for itself. The fuel is
    the length of the pattern. *)
Fixpoint tokens (fuel : nat) (pat : string) : list tok :=
  match fuel, pat with
  | 0, _ | _, EmptyString => []
  | S fuel', String c pat' =>
      if decide (c = "*"%char) then TStar :: tokens fuel' pat'
      else if decide (c = "?"%char) then TAny :: tokens fuel' pat'
      else if decide (c = "["%char) then
        match bracket pat' with
        | Some (stuff, rest) => class_of stuff :: tokens fuel' rest
        | None => TLit c :: tokens fuel' pat'
        end
      else TLit c :: tokens fuel' pat'
  end.

Definition tok_accepts (t : tok) (c : ascii) : bool :=
  match t with
  | TStar | TAny => true
  | TClass neg its => xorb neg (in_items c its)
  | TLit c' => bool_decide (c = c')
  end.

Fixpoint matches (ts : list tok) (name : string) : bool :=
  match ts with
  | [] => match name with EmptyString => true | _ => false end
  | TStar :: ts' =>
      (fix star (n : string) : bool :=
         matches ts' n ||
         match n with
         | EmptyString => false
         | String _ n' => star n'
         end) name
  | t :: ts' =>
      match name with
      | EmptyString => false
      | String c n' => tok_accepts t c && matches ts' n'
      end
  end.

(** [fnmatch.fnmatchcase(name, pat)] *)
Definition fnmatchcase (name pat : string) : bool :=
  matches (tokens (String.length pat) pat) name.

End fnmatch.

(** ** Exceptions and the two effect layers

    [Res] is a computation that returns or raises; [IO] also records, in
    order, the requests it made to the operating system. *)

Inductive exn :=
| UnknownLanguageError (msg : string)   (* semgrep.error *)
| NotGitProjectError (msg : string)     (* semgrep.error *)
| CalledProcessError                    (* subprocess: nonzero exit status *)
| OSError                               (* of the operating system: a program
                                           could not be started, a path could
                                           not be examined *)
| UnicodeDecodeError                    (* output that is not UTF-8 *)
| ValueError (msg : string).

Inductive Res (A : Type) :=
| Ok (a : A)
| Raise (e : exn).
Arguments Ok {A} a.
Arguments Raise {A} e.

Global Instance exn_eq_dec : EqDecision exn.
Proof. solve_decision. Defined.

Global Instance Res_eq_dec {A} `{EqDecision A} : EqDecision (Res A).
Proof. solve_decision. Defined.

Global Instance Res_ret : MRet Res := λ A a, Ok a.
Global Instance Res_bind : MBind Res := λ A B f m,
  match m with Ok a => f a | Raise e => Raise e end.
Global Instance Res_fmap : FMap Res := λ A B f m,
  match m with Ok a => Ok (f a) | Raise e => Raise e end.

(** [any(f(x) for x in l)]: stops at the first true value, or at the first
    exception. *)
Fixpoint any_ {A} (f : A → Res bool) (l : list A) : Res bool :=
  match l with
  | [] => Ok false
  | x :: l' => b ← f x; if b : bool then Ok true else any_ f l'
  end.

(** [set(x for x in l if f(x))], before the conversion to a set. *)
Fixpoint filter_ {A} (f : A → Res bool) (l : list A) : Res (list A) :=
  match l with
  | [] => Ok []
  | x :: l' =>
      b ← f x; r ← filter_ f l'; Ok (if b : bool then x :: r else r)
  end.

(** ** [pathlib.PurePosixPath] *)

Module pathlib.

(** A path is its root ([""], ["/"] or ["//"]) and its components;
    equality of paths is equality of these, as in [pathlib]. *)
Record Path := mkPath { root : string; names : list string }.

Global Instance Path_eq_dec : EqDecision Path.
Proof. solve_decision. Defined.

Global Instance Path_countable : Countable Path.
Proof.
  apply (inj_countable' (λ p, (root p, names p)) (λ t, mkPath t.1 t.2)).
  by intros [].
Defined.

(** [_PosixFlavour.splitroot]: exactly two leading slashes are kept,
    any other number is one. *)
Definition splitroot (part : string) : string * string :=
  match part with
  | String "/" _ =>
      let stripped_part := pystr.lstrip_while (λ c, bool_decide (c = "/"%char)) part in
      if decide (String.length part - String.length stripped_part = 2)
      then ("//", stripped_part) else ("/", stripped_part)
  | _ => ("", part)
  end.

(** [PurePosixPath(s)]: empty components and ["."] disappear. *)
Definition of_string (s : string) : Path :=
  let '(r, rel) := splitroot s in
  mkPath r (filter (λ x, x ≠ EmptyString ∧ x ≠ ".") (pystr.split "/" rel)).

(** [PurePath._cparts]: the root, when there is one, is the first part. *)
Definition _cparts (p : Path) : list string :=
  if decide (root p = EmptyString) then names p else root p :: names p.

(** [str(p)] *)
Definition str (p : Path) : string :=
  match root p, names p with
  | EmptyString, [] => "."
  | r, ns => r +:+ pystr.join "/" ns
  end.

Definition is_absolute (p : Path) : bool :=
  bool_decide (root p ≠ EmptyString).

(** [p.joinpath(s)], [p / s]: an absolute [s] replaces [p]. *)
Definition joinpath (p : Path) (s : string) : Path :=
  let q := of_string s in
  if is_absolute q then q else mkPath (root p) (names p ++ names q).

(** [p.parents]: from the nearest ancestor to the root (or to ["."]). *)
Definition parents (p : Path) : list Path :=
  (λ k, mkPath (root p) (take k (names p))) <$> reverse (seq 0 (length (names p))).

(** [PurePath.match]: a relative pattern is matched from the right,
    part by part; an absolute one must match the whole path. A pattern
    with no part raises [ValueError]. *)
Definition match_ (self : Path) (path_pattern : string) : Res bool :=
  let pat := of_string path_pattern in
  let pat_parts := _cparts pat in
  let parts := _cparts self in
  let zip_ok (pp : list string) :=
    forallb (λ '(part, pat), fnmatch.fnmatchcase part pat)
            (zip (reverse parts) (reverse pp)) in
  match pat_parts with
  | [] => Raise (ValueError "empty pattern")
  | _ :: pat_tail =>
      if bool_decide (root pat ≠ EmptyString ∧ root pat ≠ root self) then Ok false
      else if bool_decide (root pat ≠ EmptyString) then
        if bool_decide (length pat_parts ≠ length parts) then Ok false
        else Ok (zip_ok pat_tail)
      else if bool_decide (length parts < length pat_parts) then Ok false
      else Ok (zip_ok pat_parts)
  end.

End pathlib.
Export pathlib.

(** ** The operating system seen from the module

    Whether a path exists and is a directory, whether the operating system
    lets the module find out, what [Path.resolve] answers and what a child
    process does are inputs of the module; a [World] fixes them for the
    duration of one call. *)

Inductive Kind := File | Dir.

Global Instance Kind_eq_dec : EqDecision Kind.
Proof. solve_decision. Defined.

(** How a child process ended: with an exit status and what it wrote to
    its standard output, decoded as UTF-8 (the module passes
    [encoding="utf-8"] to every process it starts); with an exit status and
    output that is not UTF-8; or not started at all (no such program). *)
Inductive Completed :=
| Exited (returncode : Z) (stdout : string)
| Undecodable (returncode : Z)
| NotStarted.

Record World := {
  stat : Path → option Kind;        (* [None]: no such file or directory *)
  stat_fails : Path → bool;         (* [os.stat] fails with an error that is
                                       not absence: EACCES, ENAMETOOLONG, ... *)
  resolved : Path → Path;           (* the answer of [Path.resolve()] *)
  spawn : list string → option Path → Completed   (* argv, cwd *)
}.

Inductive Event :=
| EvStat (p : Path)                                (* exists(), is_dir() *)
| EvResolve (p : Path)                             (* resolve() *)
| EvSpawn (argv : list string) (cwd : option Path). (* a child process *)

Global Instance Event_eq_dec : EqDecision Event.
Proof. solve_decision. Defined.

Definition IO (A : Type) : Type := list Event * Res A.

Global Instance IO_ret : MRet IO := λ A a, ([], Ok a).
Global Instance IO_bind : MBind IO := λ A B f m,
  match m with
  | (t, Ok a) => let '(t', r) := f a in (t ++ t', r)
  | (t, Raise e) => (t, Raise e)
  end.

(** A computation that makes no request. *)
Definition pure_ {A} (r : Res A) : IO A := ([], r).

(** [try: body except <handled>: handler] *)
Definition try_except {A} (body : IO A) (handler : exn → option (IO A)) : IO A :=
  match body with
  | (t, Raise e) =>
      match handler e with
      | Some (t', r) => (t ++ t', r)
      | None => (t, Raise e)
      end
  | done => done
  end.

(** [for x in l: s = body(s, x)] *)
Fixpoint for_ {A S} (l : list A) (s : S) (body : S → A → IO S) : IO S :=
  match l with
  | [] => mret s
  | x :: l' => s' ← body s x; for_ l' s' body
  end.

(** [p.exists()]: false when there is no such file (ENOENT, ENOTDIR, EBADF
    and ELOOP are taken for absence); any other error of [os.stat] is
    raised. *)
Definition path_exists (w : World) (p : Path) : IO bool :=
  ([EvStat p],
   if stat_fails w p then Raise OSError
   else Ok (bool_decide (is_Some (stat w p)))).

(** [p.is_dir()]: false for a file and for a path that does not exist; any
    other error of [os.stat] is raised. *)
Definition path_is_dir (w : World) (p : Path) : IO bool :=
  ([EvStat p],
   if stat_fails w p then Raise OSError
   else Ok (bool_decide (stat w p = Some Dir))).

Definition path_resolve (w : World) (p : Path) : IO Path :=
  ([EvResolve p], Ok (resolved w p)).

Module subprocess.

(** [subprocess.run(argv, encoding="utf-8", stdout=PIPE, ...).stdout]: the
    exit status is not looked at; what was written is decoded when it is
    read. *)
Definition run (w : World) (argv : list string) (cwd : option Path) : IO string :=
  ([EvSpawn argv cwd],
   match spawn w argv cwd with
   | Exited _ out => Ok out
   | Undecodable _ => Raise UnicodeDecodeError
   | NotStarted => Raise OSError
   end).

(** [subprocess.check_output(argv, cwd=..., encoding="utf-8")]: the output
    is read, and decoded, before the exit status is looked at. *)
Definition check_output (w : World) (argv : list string) (cwd : option Path) : IO string :=
  ([EvSpawn argv cwd],
   match spawn w argv cwd with
   | Exited rc out => if decide (rc = 0%Z) then Ok out else Raise CalledProcessError
   | Undecodable _ => Raise UnicodeDecodeError
   | NotStarted => Raise OSError
   end).

End subprocess.

(** ** [semgrep/target_manager.py] *)

Definition lang_to_exts (language : string) : Res (list string) :=
  if bool_decide (language ∈ ["python"; "python2"; "python3"; "py"]) then
    Ok ["py"; "pyi"]
  else if bool_decide (language ∈ ["js"; "javascript"]) then
    Ok ["js"]
  else if bool_decide (language ∈ ["java"]) then
    Ok ["java"]
  else if bool_decide (language ∈ ["c"]) then
    Ok ["c"]
  else if bool_decide (language ∈ ["go"; "golang"]) then
    Ok ["go"]
  else if bool_decide (language ∈ ["ml"; "ocaml"]) then
    Ok ["mli"; "ml"; "mly"; "mll"]
  else
    Raise (UnknownLanguageError ("Unsupported Language: " +:+ language)).

Record TargetManager := {
  _targets : list string;
  _includes : list string;
  _excludes : list string;
  _visible_to_git_only : bool;
  _filtered_targets : gmap string (gset Path)
}.

Global Instance TargetManager_eq_dec : EqDecision TargetManager.
Proof. solve_decision. Defined.

(** [TargetManager.__init__] *)
Definition init (includes excludes targets : list string)
    (visible_to_git_only : bool) : TargetManager :=
  {| _targets := targets;
     _includes := includes;
     _excludes := excludes;
     _visible_to_git_only := visible_to_git_only;
     _filtered_targets := ∅ |}.

Definition resolve_targets (targets : list string) : gset Path :=
  let base_path := of_string "." in
  list_to_set
    ((λ target,
        if is_absolute (of_string target) then of_string target
        else joinpath base_path target) <$> targets).

Definition _parse_output (output : string) (curr_dir : Path) : gset Path :=
  if pystr.truthy output then
    list_to_set (joinpath curr_dir <$> pystr.split "010" (pystr.strip output))
  else ∅.

Definition git_tracked (ext : string) : list string :=
  ["git"; "ls-files"; "*." +:+ ext].

Definition git_untracked (ext : string) : list string :=
  ["git"; "ls-files"; "--other"; "--exclude-standard"; "*." +:+ ext].

Definition find_files (curr_dir : Path) (ext : string) : list string :=
  ["find"; str curr_dir; "-type"; "f"; "-name"; "*." +:+ ext].

Definition _expand_dir (w : World) (curr_dir : Path) (language : string)
    (visible_to_git_only : bool) : IO (gset Path) :=
  extensions ← pure_ (lang_to_exts language);
  for_ extensions (∅ : gset Path) (λ expanded ext,
    if visible_to_git_only then
      '(tracked_output, untracked_output) ←
        try_except
          (cwd ← path_resolve w curr_dir;
           tracked_output ← subprocess.check_output w (git_tracked ext) (Some cwd);
           cwd ← path_resolve w curr_dir;
           untracked_output ← subprocess.check_output w (git_untracked ext) (Some cwd);
           mret (tracked_output, untracked_output))
          (λ e, match e with
                | CalledProcessError =>
                    Some (d ← path_resolve w curr_dir;
                          pure_ (Raise (NotGitProjectError
                                          (str d +:+ " is not a git repository."))))
                | _ => None
                end);
      let tracked := _parse_output tracked_output curr_dir in
      let untracked_unignored := _parse_output untracked_output curr_dir in
      let expanded := expanded ∪ tracked in
      let expanded := expanded ∪ untracked_unignored in
      mret expanded
    else
      output ← subprocess.run w (find_files curr_dir ext) None;
      let ext_files := _parse_output output (of_string ".") in
      mret (expanded ∪ ext_files)).

Definition expand_targets (w : World) (targets : gset Path) (lang : string)
    (visible_to_git_only : bool) : IO (gset Path) :=
  for_ (elements targets) (∅ : gset Path) (λ expanded target,
    ex ← path_exists w target;
    if negb ex then mret expanded
    else
      d ← path_is_dir w target;
      if d : bool then
        files ← _expand_dir w target lang visible_to_git_only;
        mret (expanded ∪ files)
      else mret (expanded ∪ {[target]})).

Definition match_glob (path : Path) (globs : list string) : Res bool :=
  let subpaths := path :: parents path in
  any_ (λ '(p, glob), match_ p glob)
       (p ← subpaths; glob ← globs; [(p, glob)]).

Definition filter_includes (arr : gset Path) (includes : list string) : Res (gset Path) :=
  match includes with
  | [] => Ok arr
  | _ => list_to_set <$> filter_ (λ elem, match_glob elem includes) (elements arr)
  end.

Definition filter_excludes (arr : gset Path) (excludes : list string) : Res (gset Path) :=
  list_to_set <$>
    filter_ (λ elem, negb <$> match_glob elem excludes) (elements arr).

Global Instance IO_fmap : FMap IO := λ A B f m, (m.1, f <$> m.2).

(** Modelled from the spec: [partition_set] of [semgrep.util] is not among
    the sources. It splits a set by a predicate, the elements that satisfy
    it first ("Partition resolved paths into explicit files (not
    directories) and directories, by checking existence/type at call
    time"); the predicate is taken to be evaluated once on each
    element, and an exception it raises ends the partition. *)
Definition partition_set (pred : Path → IO bool) (s : gset Path)
    : IO (gset Path * gset Path) :=
  for_ (elements s) ((∅, ∅) : gset Path * gset Path) (λ '(yes, no) x,
    b ← pred x;
    mret (if b : bool then (yes ∪ {[x]}, no) else (yes, no ∪ {[x]}))).

(** The body of [filtered_files] below its cache test. *)
Definition filtered_files_miss (w : World) (self : TargetManager)
    (lang : string) : IO (gset Path) :=
  let targets := resolve_targets (_targets self) in
  '(explicit_files, directories) ←
    partition_set (λ p, negb <$> path_is_dir w p) targets;
  targets ← expand_targets w directories lang (_visible_to_git_only self);
  targets ← pure_ (filter_includes targets (_includes self));
  targets ← pure_ (filter_excludes targets (_excludes self));
  mret (targets ∪ explicit_files).

(** [self._filtered_targets[lang] = files] *)
Definition store (self : TargetManager) (lang : string) (files : gset Path)
    : TargetManager :=
  {| _targets := _targets self;
     _includes := _includes self;
     _excludes := _excludes self;
     _visible_to_git_only := _visible_to_git_only self;
     _filtered_targets := <[lang := files]> (_filtered_targets self) |}.

(** A method returns the object as it left it, what it asked of the
    operating system, and its result or exception. *)
Definition filtered_files (w : World) (self : TargetManager) (lang : string)
    : TargetManager * IO (gset Path) :=
  match _filtered_targets self !! lang with
  | Some cached => (self, mret cached)
  | None =>
      match filtered_files_miss w self lang with
      | (t, Ok files) => (store self lang files, (t, Ok files))
      | (t, Raise e) => (self, (t, Raise e))
      end
  end.

Definition get_files (w : World) (self : TargetManager) (lang : string)
    (includes excludes : list string) : TargetManager * IO (list Path) :=
  let '(self, targets) := filtered_files w self lang in
  (self,
   targets ← targets;
   targets ← pure_ (filter_includes targets includes);
   targets ← pure_ (filter_excludes targets excludes);
   mret (elements targets)).

(** ** A world given by a directory tree

    The tree lists every file and directory, and every path can be
    examined; no part of it is a git repository, and [find] and [git] are the
    only programs installed. *)

Definition under (dir f : Path) : option (list string) :=
  if decide (root dir = root f ∧ take (length (names dir)) (names f) = names dir)
  then Some (drop (length (names dir)) (names f)) else None.

(** What [find start -type f -name pat] prints: one line for each regular
    file at or below [start] whose last component matches [pat]. *)
Definition find_stdout (tree : list (Path * Kind)) (start pat : string) : string :=
  foldr (λ '(f, k) out,
      match k, under (of_string start) f, last (names f) with
      | File, Some rel, Some name =>
          if fnmatch.fnmatchcase name pat
          then pystr.join "/" (start :: rel) +:+ String "010" EmptyString +:+ out
          else out
      | _, _, _ => out
      end) EmptyString tree.

Definition tree_world (cwd : Path) (tree : list (Path * Kind)) : World :=
  {| stat p := (list_to_map tree : gmap Path Kind) !! p;
     stat_fails p := false;
     resolved p :=
       if is_absolute p then p else mkPath (root cwd) (names cwd ++ names p);
     spawn argv _ :=
       match argv with
       | [prog; start; o1; ty; o2; pat] =>
           if bool_decide (prog = "find" ∧ o1 = "-type" ∧ ty = "f" ∧ o2 = "-name")
           then match (list_to_map tree : gmap Path Kind) !! of_string start with
                | Some _ => Exited 0 (find_stdout tree start pat)
                | None => Exited 1 EmptyString
                end
           else if bool_decide (prog = "git") then Exited 128 EmptyString
           else NotStarted
       | prog :: _ =>
           if bool_decide (prog = "git") then Exited 128 EmptyString
           else NotStarted
       | [] => NotStarted
       end |}.

(** * The vocabulary of the properties *)

(** ** Glob matching *)

(** The path and its ancestors, and the pairs [match_glob] tries, in the
    order in which it tries them. *)
Definition subpaths (path : Path) : list Path := path :: parents path.

Definition candidates (path : Path) (globs : list string) : list (Path * string) :=
  p ← subpaths path; glob ← globs; [(p, glob)].

(** A pattern that [PurePath.match] accepts: it has at least one part. *)
Definition nonempty_pattern (glob : string) : Prop :=
  _cparts (of_string glob) ≠ [].

(** ** Requests to the operating system *)

(** Requests that only ask about a path; the others start a process. *)
Definition is_stat (ev : Event) : Prop :=
  match ev with EvStat _ => True | _ => False end.


(** The process was started and what it wrote is UTF-8: the module gets
    its output as a string. *)
Definition decoded (c : Completed) : bool :=
  match c with Exited _ _ => true | _ => false end.

Definition stdout_of (c : Completed) : string :=
  match c with Exited _ out => out | _ => EmptyString end.



(** The operating system lets the module examine every path of the set. *)
Definition examinable (w : World) (paths : gset Path) : Prop :=
  ∀ p, p ∈ paths → stat_fails w p = false.

Global Instance examinable_dec w paths : Decision (examinable w paths).
Proof. unfold examinable. apply (set_Forall_dec (λ p, stat_fails w p = false)). Defined.

(** ** The stages of [filtered_files] *)

(** The targets that are directories, and the others: the files and the
    paths that do not exist. *)
Definition is_directory (w : World) (p : Path) : Prop := stat w p = Some Dir.

Global Instance is_directory_dec w p : Decision (is_directory w p).
Proof. unfold is_directory. apply _. Defined.

Definition directories (w : World) (targets : list string) : gset Path :=
  filter (is_directory w) (resolve_targets targets).

Definition explicit_files (w : World) (targets : list string) : gset Path :=
  filter (λ p, ¬ is_directory w p) (resolve_targets targets).

(** Stages 4 and 5 on an expanded set. *)
Definition global_filters (w : World) (self : TargetManager)
    (expanded : gset Path) : Res (gset Path) :=
  included ← filter_includes expanded (_includes self);
  kept ← filter_excludes included (_excludes self);
  Ok (kept ∪ explicit_files w (_targets self)).

(** Every cached set is what the pipeline computes in [w]: the state of a
    manager whose queries so far were all answered by [w]. *)
Definition cache_inv (w : World) (self : TargetManager) : Prop :=
  ∀ lang s, _filtered_targets self !! lang = Some s →
            (filtered_files_miss w self lang).2 = Ok s.

(** ** Languages *)



(** ** The turns of the loop of [_expand_dir] *)

Section expansion.
Context (w : World) (curr_dir : Path).

(** The two queries [_expand_dir] makes for an extension. *)
Definition tracked_query (ext : string) : Completed :=
  spawn w (git_tracked ext) (Some (resolved w curr_dir)).






(** One turn of the loop of [_expand_dir] when [visible_to_git_only] is
    set. *)
Definition git_turn (expanded : gset Path) (ext : string) : IO (gset Path) :=
  '(tracked_output, untracked_output) ←
    try_except
      (cwd ← path_resolve w curr_dir;
       tracked_output ← subprocess.check_output w (git_tracked ext) (Some cwd);
       cwd ← path_resolve w curr_dir;
       untracked_output ← subprocess.check_output w (git_untracked ext) (Some cwd);
       mret (tracked_output, untracked_output))
      (λ e, match e with
            | CalledProcessError =>
                Some (d ← path_resolve w curr_dir;
                      pure_ (Raise (NotGitProjectError
                                      (str d +:+ " is not a git repository."))))
            | _ => None
            end);
  let tracked := _parse_output tracked_output curr_dir in
  let untracked_unignored := _parse_output untracked_output curr_dir in
  let expanded := expanded ∪ tracked in
  let expanded := expanded ∪ untracked_unignored in
  mret expanded.

(** The search [_expand_dir] runs for an extension when
    [visible_to_git_only] is not set. *)
Definition find_query (ext : string) : Completed :=
  spawn w (find_files curr_dir ext) None.

Definition found_files (ext : string) : gset Path :=
  _parse_output (stdout_of (find_query ext)) (of_string ".").

Definition find_turn (expanded : gset Path) (ext : string) : IO (gset Path) :=
  output ← subprocess.run w (find_files curr_dir ext) None;
  let ext_files := _parse_output output (of_string ".") in
  mret (expanded ∪ ext_files).

End expansion.

(** ** Worlds of the scenarios *)

Definition cwd : Path := of_string "/home/user/project".

(** [src/] holds [a.py], [b.pyi] and [c.txt], and nothing else. *)
Definition scenario_A : World :=
  tree_world cwd
    [(of_string "src", Dir); (of_string "src/a.py", File);
     (of_string "src/b.pyi", File); (of_string "src/c.txt", File)].

(** [main.go] is a file of the working directory. *)
Definition scenario_B : World :=
  tree_world cwd [(of_string "main.go", File)].

(** An empty working directory. *)
Definition nothing : World := tree_world cwd [].

(** The line feed. *)
Definition nl : string := String "010" EmptyString.





(** The directory [vault] cannot be searched: [os.stat] is refused for
    [vault/key.py]. *)
Definition locked : World :=
  {| stat p := if decide (p = of_string "vault") then Some Dir else None;
     stat_fails p := bool_decide (p = of_string "vault/key.py");
     resolved p := if is_absolute p then p else mkPath (root cwd) (names cwd ++ names p);
     spawn argv dir := NotStarted |}.

(** ** Listings *)


(** What a lister writes for the paths [lines]: each of them followed by a
    line feed, and nothing at all when there is none. *)
Definition printed (lines : list string) : string :=
  foldr (λ line out, line +:+ nl +:+ out) EmptyString lines.


(** ** Processes *)

(** The request starts no process other than [prog]. *)
Definition spawns_only (prog : string) (ev : Event) : Prop :=
  match ev with EvSpawn argv _ => head argv = Some prog | _ => True end.

(** ** Managers in use *)

(** The states a manager created as [fresh] goes through when its methods
    are called, any number of times and with any arguments, in the world
    [w]. *)
Inductive reachable (w : World) (fresh : TargetManager) : TargetManager → Prop :=
| reachable_fresh : reachable w fresh fresh
| reachable_filtered_files (self : TargetManager) (lang : string) :
    reachable w fresh self →
    reachable w fresh (filtered_files w self lang).1
| reachable_get_files (self : TargetManager) (lang : string)
      (includes excludes : list string) :
    reachable w fresh self →
    reachable w fresh (get_files w self lang includes excludes).1.

(** * Properties *)

(** ** Short-circuit iteration *)

Section iteration.
Context {A : Type} (f : A → Res bool).

Lemma any__false (l : list A) :
  any_ f l = Ok false ↔ ∀ x, x ∈ l → f x = Ok false.
Proof.
  induction l as [|x l IH]; simpl.
  - split; [intros _ x Hx; by apply elem_of_nil in Hx | done].
  - destruct (f x) as [[]|e] eqn:Hx; simpl.
    + split; [done | intros H; specialize (H x (list_elem_of_here _ _)); congruence].
    + rewrite IH. split.
      * intros H y [->|Hy]%elem_of_cons; auto.
      * intros H y Hy. apply H. by right.
    + split; [done | intros H; specialize (H x (list_elem_of_here _ _)); congruence].
Qed.

Lemma any__true (l : list A) :
  any_ f l = Ok true → ∃ x, x ∈ l ∧ f x = Ok true.
Proof.
  induction l as [|x l IH]; simpl; [done|].
  destruct (f x) as [[]|e] eqn:Hx; simpl; [| |done].
  - intros _. exists x. split; [left | done].
  - intros (y & Hy & Hfy)%IH. exists y. split; [by right | done].
Qed.

Lemma any__raise (l : list A) (e : exn) :
  any_ f l = Raise e → ∃ x, x ∈ l ∧ f x = Raise e.
Proof.
  induction l as [|x l IH]; simpl; [done|].
  destruct (f x) as [[]|e'] eqn:Hx; simpl; [done| |].
  - intros (y & Hy & Hfy)%IH. exists y. split; [by right | done].
  - intros [= ->]. exists x. split; [left | done].
Qed.

Lemma filter__elem_of (l r : list A) :
  filter_ f l = Ok r → ∀ x, x ∈ r ↔ x ∈ l ∧ f x = Ok true.
Proof.
  revert r. induction l as [|y l IH]; simpl; intros r.
  - intros [= <-] x. split; [by intros ?%elem_of_nil | by intros [?%elem_of_nil _]].
  - destruct (f y) as [b|e] eqn:Hy; simpl; [|done].
    destruct (filter_ f l) as [r'|e] eqn:Hl; simpl; [|done].
    intros [= <-] x. specialize (IH r' eq_refl x).
    destruct b.
    + rewrite !elem_of_cons, IH. split.
      * intros [->|[? ?]]; auto.
      * intros [[->|?] ?]; auto.
    + rewrite elem_of_cons, IH. split.
      * intros [? ?]; auto.
      * intros [[->|?] ?]; [congruence | auto].
Qed.

Lemma filter__returns (l : list A) :
  (∀ x, x ∈ l → ∃ b, f x = Ok b) → ∃ r, filter_ f l = Ok r.
Proof.
  induction l as [|y l IH]; simpl; intros H; [by eexists|].
  destruct (H y (list_elem_of_here _ _)) as [b ->]. simpl.
  destruct IH as [r ->]; [intros x Hx; apply H; by right|].
  simpl. by eexists.
Qed.

End iteration.

(** ** The glob filter *)

Lemma elem_of_candidates (path : Path) (globs : list string) p glob :
  (p, glob) ∈ candidates path globs ↔ p ∈ subpaths path ∧ glob ∈ globs.
Proof.
  unfold candidates. rewrite list_elem_of_bind. split.
  - intros (q & (g & Hin & Hg)%list_elem_of_bind & Hq).
    apply list_elem_of_singleton in Hin. by simplify_eq.
  - intros [Hp Hg]. exists p. split; [|done].
    apply list_elem_of_bind. exists glob. split; [|done].
    by apply list_elem_of_singleton.
Qed.

Lemma match_glob_unfold (path : Path) (globs : list string) :
  match_glob path globs =
  any_ (λ '(p, glob), match_ p glob) (candidates path globs).
Proof. reflexivity. Qed.

Lemma match__raises (p : Path) (glob : string) (e : exn) :
  match_ p glob = Raise e →
  e = ValueError "empty pattern" ∧ ¬ nonempty_pattern glob.
Proof.
  unfold match_, nonempty_pattern.
  destruct (_cparts (of_string glob)) as [|x xs]; [intros [= <-]; auto|].
  repeat case_bool_decide; done.
Qed.

Lemma match__returns (p : Path) (glob : string) :
  nonempty_pattern glob → ∃ b, match_ p glob = Ok b.
Proof.
  unfold match_, nonempty_pattern.
  destruct (_cparts (of_string glob)) as [|x xs]; [done|].
  intros _. repeat case_bool_decide; by eexists.
Qed.

Lemma match_glob_false (path : Path) (globs : list string) :
  match_glob path globs = Ok false ↔
  ∀ p glob, p ∈ subpaths path → glob ∈ globs → match_ p glob = Ok false.
Proof.
  rewrite match_glob_unfold, any__false. split.
  - intros H p glob Hp Hg. apply (H (p, glob)). by apply elem_of_candidates.
  - intros H [p glob] [Hp Hg]%elem_of_candidates. by apply H.
Qed.

Lemma match_glob_true (path : Path) (globs : list string) :
  match_glob path globs = Ok true →
  ∃ p glob, p ∈ subpaths path ∧ glob ∈ globs ∧ match_ p glob = Ok true.
Proof.
  rewrite match_glob_unfold. intros ([p glob] & Hin & Hm)%any__true.
  apply elem_of_candidates in Hin as [Hp Hg]. by exists p, glob.
Qed.

Lemma match_glob_raises (path : Path) (globs : list string) (e : exn) :
  match_glob path globs = Raise e →
  e = ValueError "empty pattern" ∧ ∃ glob, glob ∈ globs ∧ ¬ nonempty_pattern glob.
Proof.
  rewrite match_glob_unfold. intros ([p glob] & Hin & Hm)%any__raise.
  apply elem_of_candidates in Hin as [Hp Hg].
  apply match__raises in Hm as [-> Hne]. split; [done|]. by exists glob.
Qed.

Lemma match_glob_returns (path : Path) (globs : list string) :
  Forall nonempty_pattern globs → ∃ b, match_glob path globs = Ok b.
Proof.
  intros Hall. destruct (match_glob path globs) as [b|e] eqn:H; [by eexists|].
  apply match_glob_raises in H as (_ & glob & Hg & Hne).
  rewrite Forall_forall in Hall. exfalso. by apply Hne, Hall.
Qed.

Lemma match_glob_nil (path : Path) : match_glob path [] = Ok false.
Proof.
  apply match_glob_false. intros p glob _ Hg. by apply elem_of_nil in Hg.
Qed.

Lemma filter_excludes_elem_of (arr : gset Path) (excludes : list string) (R : gset Path) :
  filter_excludes arr excludes = Ok R →
  ∀ x, x ∈ R ↔ x ∈ arr ∧ match_glob x excludes = Ok false.
Proof.
  unfold filter_excludes.
  destruct (filter_ _ (elements arr)) as [r|e] eqn:Hr; simpl; [|done].
  intros [= <-] x. rewrite elem_of_list_to_set, (filter__elem_of _ _ _ Hr x).
  rewrite elem_of_elements.
  destruct (match_glob x excludes) as [[]|e]; simpl; intuition congruence.
Qed.

Lemma filter_includes_elem_of (arr : gset Path) (includes : list string) (R : gset Path) :
  filter_includes arr includes = Ok R →
  ∀ x, x ∈ R ↔ x ∈ arr ∧ (includes = [] ∨ match_glob x includes = Ok true).
Proof.
  unfold filter_includes. destruct includes as [|g gs].
  - intros [= <-] x. intuition.
  - destruct (filter_ _ (elements arr)) as [r|e] eqn:Hr; simpl; [|done].
    intros [= <-] x. rewrite elem_of_list_to_set, (filter__elem_of _ _ _ Hr x).
    rewrite elem_of_elements. intuition congruence.
Qed.

Lemma filter_excludes_returns (arr : gset Path) (excludes : list string) :
  Forall nonempty_pattern excludes → ∃ R, filter_excludes arr excludes = Ok R.
Proof.
  intros Hall. unfold filter_excludes.
  destruct (filter__returns (λ elem, negb <$> match_glob elem excludes) (elements arr))
    as [r ->]; [|by eexists].
  intros x _. destruct (match_glob_returns x excludes Hall) as [b ->]. by eexists.
Qed.

Lemma filter_includes_returns (arr : gset Path) (includes : list string) :
  Forall nonempty_pattern includes → ∃ R, filter_includes arr includes = Ok R.
Proof.
  intros Hall. unfold filter_includes. destruct includes as [|g gs]; [by eexists|].
  destruct (filter__returns (λ elem, match_glob elem (g :: gs)) (elements arr))
    as [r ->]; [|by eexists].
  intros x _. apply (match_glob_returns x _ Hall).
Qed.

Lemma filter__keep_all {A} (f : A → Res bool) (l : list A) :
  (∀ x, x ∈ l → f x = Ok true) → filter_ f l = Ok l.
Proof.
  induction l as [|y l IH]; simpl; intros H; [done|].
  rewrite (H y (list_elem_of_here _ _)). simpl.
  rewrite IH; [done|]. intros x Hx. apply H. by right.
Qed.

(** C4. With an empty pattern list both filters give back the set they
    were given: an empty include list restricts nothing and an empty
    exclude list removes nothing. *)
Theorem filter_empty_patterns (S : gset Path) :
  filter_includes S [] = Ok S ∧ filter_excludes S [] = Ok S.
Proof.
  split; [reflexivity|].
  unfold filter_excludes. rewrite filter__keep_all.
  - simpl. f_equal. apply list_to_set_elements_L.
  - intros x _. by rewrite match_glob_nil.
Qed.

(** C5. Whenever [filter_excludes S P] returns a set, that set is part of
    [S] and [match_glob] answers false on each of its elements: neither
    the element nor any of its ancestors matches any pattern of [P]. *)
Theorem filter_excludes_no_match (S : gset Path) (P : list string) (R : gset Path) :
  filter_excludes S P = Ok R →
  R ⊆ S ∧
  ∀ e, e ∈ R →
    match_glob e P = Ok false ∧
    ∀ p glob, p ∈ e :: parents e → glob ∈ P → match_ p glob = Ok false.
Proof.
  intros HR. pose proof (filter_excludes_elem_of _ _ _ HR) as Hin. split.
  - intros e He. by apply Hin in He as [? _].
  - intros e [_ Hm]%Hin. split; [done|].
    by apply match_glob_false.
Qed.

Lemma filter_excludes_no_match_witness :
  filter_excludes {[of_string "project/tests/foo.py"; of_string "project/main.py"]}
                  ["tests"; "*.pyc"]
  = Ok {[of_string "project/main.py"]} ∧
  (({[of_string "project/main.py"]} : gset Path)
     ⊆ {[of_string "project/tests/foo.py"; of_string "project/main.py"]} ∧
   ∀ e, e ∈ ({[of_string "project/main.py"]} : gset Path) →
     match_glob e ["tests"; "*.pyc"] = Ok false ∧
     ∀ p glob, p ∈ e :: parents e → glob ∈ ["tests"; "*.pyc"] →
               match_ p glob = Ok false).
Proof.
  split; [compute_done|].
  apply (filter_excludes_no_match
           {[of_string "project/tests/foo.py"; of_string "project/main.py"]}
           ["tests"; "*.pyc"] {[of_string "project/main.py"]}).
  compute_done.
Defined.

(** C7. [match_glob] is ancestor-or-self matching. When it returns, it
    returns true exactly when the path or one of its ancestors matches one
    of the patterns; it raises only [ValueError], and only when a pattern
    has no part, so it returns for every list of patterns that have one.
    The pattern [tests] does not match [project/tests/foo.py] itself but
    matches its ancestor [project/tests], so [match_glob] is true there and
    [filter_excludes] with [["tests"]] removes the file. *)
Theorem match_glob_ancestor_or_self :
  (∀ path globs,
     match match_glob path globs with
     | Ok b =>
         b = true ↔
         ∃ p glob, p ∈ path :: parents path ∧ glob ∈ globs ∧ match_ p glob = Ok true
     | Raise e =>
         e = ValueError "empty pattern" ∧
         ∃ glob, glob ∈ globs ∧ _cparts (of_string glob) = []
     end) ∧
  (∀ path globs,
     Forall (λ glob, _cparts (of_string glob) ≠ []) globs →
     ∃ b, match_glob path globs = Ok b) ∧
  match_ (of_string "project/tests/foo.py") "tests" = Ok false ∧
  match_ (of_string "project/tests") "tests" = Ok true ∧
  of_string "project/tests" ∈ parents (of_string "project/tests/foo.py") ∧
  match_glob (of_string "project/tests/foo.py") ["tests"] = Ok true ∧
  filter_excludes {[of_string "project/tests/foo.py"]} ["tests"] = Ok ∅.
Proof.
  split; [|split].
  - intros path globs. destruct (match_glob path globs) as [[]|e] eqn:H.
    + split; [intros _ | done]. by apply match_glob_true.
    + split; [done|]. intros (p & glob & Hp & Hg & Hm).
      rewrite match_glob_false in H. specialize (H p glob Hp Hg). congruence.
    + apply match_glob_raises in H as (-> & glob & Hg & Hne). split; [done|].
      exists glob. split; [done|].
      unfold nonempty_pattern in Hne.
      destruct (_cparts (of_string glob)); [done | exfalso; by apply Hne].
  - apply match_glob_returns.
  - repeat split; compute_done.
Qed.

(** ** Reasoning about [IO] computations *)

Lemma IO_bind_unfold {A B} (t : list Event) (a : A) (f : A → IO B) :
  ((t, Ok a) : IO A) ≫= f = (t ++ (f a).1, (f a).2).
Proof. unfold mbind, IO_bind. by destruct (f a). Qed.

Lemma IO_bind_raise {A B} (t : list Event) (e : exn) (f : A → IO B) :
  ((t, Raise e) : IO A) ≫= f = (t, Raise e).
Proof. reflexivity. Qed.

Lemma IO_ret_unfold {A} (a : A) : (mret a : IO A) = ([], Ok a).
Proof. reflexivity. Qed.

Lemma pure_bind_Ok {A B} (a : A) (f : A → IO B) : pure_ (Ok a) ≫= f = f a.
Proof. unfold pure_. rewrite IO_bind_unfold. by destruct (f a). Qed.

Lemma pure_bind_Raise {A B} (e : exn) (f : A → IO B) :
  pure_ (Raise e) ≫= f = ([], Raise e).
Proof. reflexivity. Qed.

(** ** Stage 2: explicit files and directories *)

Lemma path_is_dir_neg (w : World) (x : Path) :
  stat_fails w x = false →
  negb <$> path_is_dir w x = ([EvStat x], Ok (negb (bool_decide (is_directory w x)))).
Proof. intros H. unfold path_is_dir. by rewrite H. Qed.

Lemma path_is_dir_fails (w : World) (x : Path) :
  stat_fails w x = true →
  negb <$> path_is_dir w x = ([EvStat x], Raise OSError).
Proof. intros H. unfold path_is_dir. by rewrite H. Qed.

Lemma partition_set_loop (w : World) (l : list Path) (yes no : gset Path) :
  (∀ p, p ∈ l → stat_fails w p = false) →
  for_ l (yes, no) (λ '(yes, no) x,
    b ← negb <$> path_is_dir w x;
    mret (if b : bool then (yes ∪ {[x]}, no) else (yes, no ∪ {[x]})))
  = (EvStat <$> l,
     Ok (yes ∪ list_to_set (filter (λ p, ¬ is_directory w p) l),
         no ∪ list_to_set (filter (is_directory w) l))).
Proof.
  revert yes no. induction l as [|x l IH]; intros yes no Hl.
  - simpl. rewrite IO_ret_unfold. do 3 f_equal; set_solver.
  - cbn [for_]. rewrite path_is_dir_neg by (apply Hl; left).
    rewrite IO_bind_unfold, IO_ret_unfold. cbn [fst snd].
    assert (∀ p, p ∈ l → stat_fails w p = false) as Hl'
      by (intros p Hp; apply Hl; by right).
    case_bool_decide as Hd; cbn [negb]; rewrite IO_bind_unfold, (IH _ _ Hl');
      cbn [fst snd].
    + rewrite filter_cons_False by (intros Hn; by apply Hn).
      rewrite filter_cons_True by done.
      do 3 f_equal; set_solver.
    + rewrite filter_cons_True by done.
      rewrite filter_cons_False by done.
      do 3 f_equal; set_solver.
Qed.

(** The partition stops at the first path that cannot be examined. *)
Lemma partition_set_loop_fails (w : World) (l : list Path) (yes no : gset Path) :
  (∃ p, p ∈ l ∧ stat_fails w p = true) →
  ∃ t, Forall is_stat t ∧
    for_ l (yes, no) (λ '(yes, no) x,
      b ← negb <$> path_is_dir w x;
      mret (if b : bool then (yes ∪ {[x]}, no) else (yes, no ∪ {[x]})))
    = (t, Raise OSError).
Proof.
  revert yes no. induction l as [|x l IH]; intros yes no (p & Hp & Hfail).
  - by apply elem_of_nil in Hp.
  - cbn [for_]. destruct (stat_fails w x) eqn:Hx.
    + rewrite (path_is_dir_fails _ _ Hx), IO_bind_raise, IO_bind_raise.
      exists [EvStat x]. split; [by repeat constructor | done].
    + apply elem_of_cons in Hp as [->|Hp]; [congruence|].
      rewrite (path_is_dir_neg _ _ Hx), IO_bind_unfold, IO_ret_unfold. cbn [fst snd].
      rewrite IO_bind_unfold. cbn [fst snd].
      destruct (negb (bool_decide (is_directory w x)));
        [destruct (IH (yes ∪ {[x]}) no) as (t & Ht & ->)
        |destruct (IH yes (no ∪ {[x]})) as (t & Ht & ->)];
        try (by exists p); (exists (EvStat x :: t); split; [by constructor | done]).
Qed.

Lemma partition_set_is_dir (w : World) (targets : list string) :
  examinable w (resolve_targets targets) →
  partition_set (λ p, negb <$> path_is_dir w p) (resolve_targets targets)
  = (EvStat <$> elements (resolve_targets targets),
     Ok (explicit_files w targets, directories w targets)).
Proof.
  intros Hex. unfold partition_set. rewrite partition_set_loop
    by (intros p Hp%elem_of_elements; by apply Hex).
  unfold explicit_files, directories. do 3 f_equal.
  - apply set_eq. intros p.
    rewrite elem_of_union, elem_of_list_to_set, list_elem_of_filter,
      elem_of_filter, elem_of_elements. set_solver.
  - apply set_eq. intros p.
    rewrite elem_of_union, elem_of_list_to_set, list_elem_of_filter,
      elem_of_filter, elem_of_elements. set_solver.
Qed.

Lemma partition_set_fails (w : World) (targets : list string) :
  ¬ examinable w (resolve_targets targets) →
  ∃ t, Forall is_stat t ∧
    partition_set (λ p, negb <$> path_is_dir w p) (resolve_targets targets)
    = (t, Raise OSError).
Proof.
  intros Hex. unfold partition_set. apply partition_set_loop_fails.
  destruct (decide (Exists (λ p, stat_fails w p = true)
                           (elements (resolve_targets targets)))) as [He|Hn].
  - apply Exists_exists in He as (p & Hp & Hf). by exists p.
  - exfalso. apply Hex. intros p Hp%elem_of_elements.
    destruct (stat_fails w p) eqn:Hf; [|done].
    exfalso. apply Hn, Exists_exists. by exists p.
Qed.

(** ** The pipeline of [filtered_files], stage by stage *)

Lemma filtered_files_miss_stages (w : World) (self : TargetManager) (lang : string) :
  examinable w (resolve_targets (_targets self)) →
  filtered_files_miss w self lang =
  let expansion :=
    expand_targets w (directories w (_targets self)) lang (_visible_to_git_only self) in
  ((EvStat <$> elements (resolve_targets (_targets self))) ++ expansion.1,
   expansion.2 ≫= global_filters w self).
Proof.
  intros Hex.
  unfold filtered_files_miss. rewrite (partition_set_is_dir _ _ Hex), IO_bind_unfold.
  cbn zeta.
  destruct (expand_targets _ _ _ _) as [t [expanded|e]]; [|done].
  rewrite IO_bind_unfold. cbn [fst snd].
  change (Ok expanded ≫= global_filters w self) with (global_filters w self expanded).
  unfold global_filters.
  destruct (filter_includes expanded _) as [included|e]; cbn [mbind Res_bind];
    [rewrite pure_bind_Ok | rewrite pure_bind_Raise; cbn [fst snd]; by rewrite app_nil_r].
  destruct (filter_excludes included _) as [kept|e]; cbn [mbind Res_bind];
    [rewrite pure_bind_Ok | rewrite pure_bind_Raise; cbn [fst snd]; by rewrite app_nil_r].
  rewrite IO_ret_unfold. cbn [fst snd]. by rewrite app_nil_r.
Qed.

(** When a target cannot be examined the call raises the error of the
    operating system, having started no process. *)
Lemma filtered_files_miss_fails (w : World) (self : TargetManager) (lang : string) :
  ¬ examinable w (resolve_targets (_targets self)) →
  ∃ t, Forall is_stat t ∧ filtered_files_miss w self lang = (t, Raise OSError).
Proof.
  intros Hex. unfold filtered_files_miss.
  destruct (partition_set_fails _ _ Hex) as (t & Ht & ->). by exists t.
Qed.

(** A call that returns has examined every target. *)
Lemma filtered_files_miss_examined (w : World) (self : TargetManager)
    (lang : string) (s : gset Path) :
  (filtered_files_miss w self lang).2 = Ok s →
  examinable w (resolve_targets (_targets self)).
Proof.
  intros H. destruct (decide (examinable w (resolve_targets (_targets self))))
    as [|Hn]; [done|].
  destruct (filtered_files_miss_fails w self lang Hn) as (t & _ & Hf).
  by rewrite Hf in H.
Qed.

Lemma global_filters_Ok (w : World) (self : TargetManager) (expanded s : gset Path) :
  global_filters w self expanded = Ok s →
  ∃ kept, s = kept ∪ explicit_files w (_targets self) ∧
    ∀ p, p ∈ kept ↔
      p ∈ expanded ∧
      (_includes self = [] ∨ match_glob p (_includes self) = Ok true) ∧
      match_glob p (_excludes self) = Ok false.
Proof.
  unfold global_filters.
  destruct (filter_includes _ _) as [included|e] eqn:Hi; [|done]. simpl.
  destruct (filter_excludes _ _) as [kept|e] eqn:He; [|done]. simpl.
  intros [= <-]. exists kept. split; [done|]. intros p.
  rewrite (filter_excludes_elem_of _ _ _ He), (filter_includes_elem_of _ _ _ Hi).
  intuition.
Qed.

Lemma filtered_files_miss_explicit (w : World) (self : TargetManager)
    (lang : string) (t : list Event) (s : gset Path) :
  filtered_files_miss w self lang = (t, Ok s) →
  explicit_files w (_targets self) ⊆ s.
Proof.
  intros Hm.
  assert (examinable w (resolve_targets (_targets self))) as Hex
    by (apply (filtered_files_miss_examined w self lang s); by rewrite Hm).
  revert Hm. rewrite (filtered_files_miss_stages _ _ _ Hex). cbn zeta. intros [= _ H].
  destruct (expand_targets _ _ _ _).2 as [expanded|e]; [|done].
  apply global_filters_Ok in H as (kept & -> & _). set_solver.
Qed.

(** ** The cache *)

Lemma cache_inv_init (w : World) includes excludes targets git :
  cache_inv w (init includes excludes targets git).
Proof. intros lang s H. unfold init in H. simpl in H. by rewrite lookup_empty in H. Qed.

Lemma filtered_files_miss_store (w : World) (self : TargetManager) l s lang :
  filtered_files_miss w (store self l s) lang = filtered_files_miss w self lang.
Proof. reflexivity. Qed.

Lemma filtered_files_hit (w : World) (self : TargetManager) (lang : string) s :
  _filtered_targets self !! lang = Some s →
  filtered_files w self lang = (self, ([], Ok s)).
Proof. intros H. unfold filtered_files. by rewrite H. Qed.

Lemma filtered_files_Ok (w : World) (self self' : TargetManager) (lang : string)
    (t : list Event) (s : gset Path) :
  filtered_files w self lang = (self', (t, Ok s)) →
  (_filtered_targets self !! lang = Some s ∧ self' = self ∧ t = []) ∨
  (_filtered_targets self !! lang = None ∧ self' = store self lang s ∧
   filtered_files_miss w self lang = (t, Ok s)).
Proof.
  unfold filtered_files. destruct (_filtered_targets self !! lang) as [c|] eqn:Hc.
  - intros [= <- <- <-]. by left.
  - destruct (filtered_files_miss w self lang) as [t' [s'|e]] eqn:Hm; [|done].
    intros [= <- <- <-]. by right.
Qed.

Lemma filtered_files_Raise (w : World) (self self' : TargetManager) (lang : string)
    (t : list Event) (e : exn) :
  filtered_files w self lang = (self', (t, Raise e)) →
  _filtered_targets self !! lang = None ∧ self' = self ∧
  filtered_files_miss w self lang = (t, Raise e).
Proof.
  unfold filtered_files. destruct (_filtered_targets self !! lang) as [c|] eqn:Hc; [done|].
  destruct (filtered_files_miss w self lang) as [t' [s'|e']] eqn:Hm; [done|].
  by intros [= <- <- <-].
Qed.

Lemma cache_inv_filtered_files (w : World) (self self' : TargetManager)
    (lang : string) (r : IO (gset Path)) :
  cache_inv w self → filtered_files w self lang = (self', r) → cache_inv w self'.
Proof.
  intros Hinv. destruct r as [t [s|e]].
  - intros [(_ & -> & _)|(Hnone & -> & Hm)]%filtered_files_Ok; [done|].
    intros l c. rewrite filtered_files_miss_store. cbn [_filtered_targets store].
    destruct (decide (l = lang)) as [->|Hne].
    + rewrite lookup_insert_eq. intros [= <-]. by rewrite Hm.
    + rewrite lookup_insert_ne by done. apply Hinv.
  - by intros (_ & -> & _)%filtered_files_Raise.
Qed.

Lemma get_files_fst (w : World) (self : TargetManager) (lang : string)
    (includes excludes : list string) :
  (get_files w self lang includes excludes).1 = (filtered_files w self lang).1.
Proof. unfold get_files. by destruct (filtered_files w self lang). Qed.

Lemma cache_inv_get_files (w : World) (self self' : TargetManager)
    (lang : string) (includes excludes : list string) (r : IO (list Path)) :
  cache_inv w self → get_files w self lang includes excludes = (self', r) →
  cache_inv w self'.
Proof.
  intros Hinv H. pose proof (get_files_fst w self lang includes excludes) as Hfst.
  rewrite H in Hfst. cbn [fst] in Hfst.
  destruct (filtered_files w self lang) as [self'' r'] eqn:Hf. cbn [fst] in Hfst.
  subst self''. by eapply cache_inv_filtered_files.
Qed.

Lemma filtered_files_computed (w : World) (self self' : TargetManager)
    (lang : string) (t : list Event) (s : gset Path) :
  cache_inv w self → filtered_files w self lang = (self', (t, Ok s)) →
  _filtered_targets self' !! lang = Some s ∧
  (filtered_files_miss w self lang).2 = Ok s.
Proof.
  intros Hinv [(Hc & -> & _)|(_ & -> & Hm)]%filtered_files_Ok.
  - split; [done | by apply Hinv].
  - split; [|by rewrite Hm]. cbn [_filtered_targets store]. apply lookup_insert_eq.
Qed.

Lemma filtered_files_keeps_non_directories (w : World) (self self' : TargetManager)
    (lang : string) (t : list Event) (s : gset Path) (p : Path) :
  cache_inv w self → filtered_files w self lang = (self', (t, Ok s)) →
  p ∈ resolve_targets (_targets self) → ¬ is_directory w p → p ∈ s.
Proof.
  intros Hinv Hf Hp Hnd.
  destruct (filtered_files_computed _ _ _ _ _ _ Hinv Hf) as [_ Hm].
  destruct (filtered_files_miss w self lang) as [t' r] eqn:Hmiss.
  cbn [snd] in Hm. subst r.
  apply (filtered_files_miss_explicit _ _ _ _ _ Hmiss).
  unfold explicit_files. by apply elem_of_filter.
Qed.

Lemma cache_entry_persists (w : World) (self self' : TargetManager)
    (lang lang' : string) (s : gset Path) (r : IO (gset Path)) :
  _filtered_targets self !! lang = Some s →
  filtered_files w self lang' = (self', r) →
  _filtered_targets self' !! lang = Some s.
Proof.
  intros Hc. destruct r as [t [s'|e]].
  - intros [(_ & -> & _)|(Hnone & -> & _)]%filtered_files_Ok; [done|].
    cbn [_filtered_targets store]. rewrite lookup_insert_ne; [done|].
    intros ->. congruence.
  - by intros (_ & -> & _)%filtered_files_Raise.
Qed.

(** C3. A target that exists and is not a directory is in the set
    [filtered_files] returns, whatever the manager's include and exclude
    patterns are, also when an exclude pattern matches it. The manager is
    any manager whose earlier queries were answered by the same world. *)
Theorem explicit_files_bypass_global_filters (w : World)
    (self self' : TargetManager) (lang : string) (t : list Event)
    (s : gset Path) (p : Path) :
  cache_inv w self →
  p ∈ resolve_targets (_targets self) →
  stat w p = Some File →
  filtered_files w self lang = (self', (t, Ok s)) →
  p ∈ s.
Proof.
  intros Hinv Hp Hfile Hf.
  apply (filtered_files_keeps_non_directories _ _ _ _ _ _ _ Hinv Hf Hp).
  unfold is_directory. congruence.
Qed.

Lemma explicit_files_bypass_global_filters_witness :
  match_glob (of_string "main.go") ["*.go"] = Ok true ∧
  of_string "main.go" ∈ ({[of_string "main.go"]} : gset Path).
Proof.
  split; [compute_done|].
  apply (explicit_files_bypass_global_filters scenario_B
           (init [] ["*.go"] ["main.go"] false)
           (store (init [] ["*.go"] ["main.go"] false) "go" {[of_string "main.go"]})
           "go" [EvStat (of_string "main.go")]).
  - apply cache_inv_init.
  - compute_done.
  - compute_done.
  - compute_done.
Defined.

(** C6. After a call of [filtered_files] that returned a set, a second
    call for the same language returns the same set, asks nothing of the
    operating system and leaves the manager as it is, in whatever state the
    file system then is; and no later call, for any language, replaces the
    cached set. *)
Theorem filtered_files_idempotent (w1 w2 : World) (self self1 : TargetManager)
    (lang : string) (t1 : list Event) (s : gset Path) :
  filtered_files w1 self lang = (self1, (t1, Ok s)) →
  filtered_files w2 self1 lang = (self1, ([], Ok s)) ∧
  ∀ w lang' self2 r,
    filtered_files w self1 lang' = (self2, r) →
    _filtered_targets self2 !! lang = Some s.
Proof.
  intros Hf.
  assert (_filtered_targets self1 !! lang = Some s) as Hc.
  { apply filtered_files_Ok in Hf as [(Hc & -> & _)|(_ & -> & _)]; [done|].
    cbn [_filtered_targets store]. apply lookup_insert_eq. }
  split; [by apply filtered_files_hit|].
  intros w lang' self2 r. by apply cache_entry_persists.
Qed.

Lemma filtered_files_idempotent_witness :
  filtered_files nothing
    (store (init [] [] ["src"] false) "python"
       {[of_string "src/a.py"; of_string "src/b.pyi"]}) "python"
  = (store (init [] [] ["src"] false) "python"
       {[of_string "src/a.py"; of_string "src/b.pyi"]},
     ([], Ok {[of_string "src/a.py"; of_string "src/b.pyi"]})) ∧
  ∀ w lang' self2 r,
    filtered_files w
      (store (init [] [] ["src"] false) "python"
         {[of_string "src/a.py"; of_string "src/b.pyi"]}) lang'
    = (self2, r) →
    _filtered_targets self2 !! "python"
    = Some {[of_string "src/a.py"; of_string "src/b.pyi"]}.
Proof.
  apply (filtered_files_idempotent scenario_A nothing (init [] [] ["src"] false)
           (store (init [] [] ["src"] false) "python"
              {[of_string "src/a.py"; of_string "src/b.pyi"]})
           "python"
           (filtered_files scenario_A (init [] [] ["src"] false) "python").2.1
           {[of_string "src/a.py"; of_string "src/b.pyi"]}).
  compute_done.
Defined.

(** ** The local filters of [get_files] *)

Lemma get_files_Ok (w : World) (self self' : TargetManager) (lang : string)
    (includes excludes : list string) (t : list Event) (L : list Path) :
  get_files w self lang includes excludes = (self', (t, Ok L)) →
  ∃ cached included kept,
    filtered_files w self lang = (self', (t, Ok cached)) ∧
    filter_includes cached includes = Ok included ∧
    filter_excludes included excludes = Ok kept ∧
    L = elements kept.
Proof.
  unfold get_files.
  destruct (filtered_files w self lang) as [self1 [t1 [cached|e]]]; [|done].
  rewrite IO_bind_unfold.
  destruct (filter_includes cached includes) as [included|e] eqn:Hi;
    [rewrite pure_bind_Ok | rewrite pure_bind_Raise; cbn [fst snd]; intros [=]].
  destruct (filter_excludes included excludes) as [kept|e] eqn:He;
    [rewrite pure_bind_Ok | rewrite pure_bind_Raise; cbn [fst snd]; intros [=]].
  rewrite IO_ret_unfold. cbn [fst snd]. rewrite app_nil_r.
  intros [= <- <- <-]. by exists cached, included, kept.
Qed.

(** C10. The local filters apply to every path of the cached set, the
    explicitly named files included. When [get_files] returns a list, the
    list has no duplicate and holds exactly the paths of the cached set
    (the set [filtered_files] returns for the language) that pass the local
    include and exclude lists; a target that is a file is in the cached
    set, and it is absent from the list when a local exclude pattern matches
    it or when it matches no pattern of a non-empty local include list. *)
Theorem get_files_applies_local_filters (w : World) (self self' : TargetManager)
    (lang : string) (includes excludes : list string) (t : list Event)
    (L : list Path) :
  cache_inv w self →
  get_files w self lang includes excludes = (self', (t, Ok L)) →
  NoDup L ∧
  ∃ cached,
    _filtered_targets self' !! lang = Some cached ∧
    filtered_files w self' lang = (self', ([], Ok cached)) ∧
    (∀ p, p ∈ L ↔
          p ∈ cached ∧
          (includes = [] ∨ match_glob p includes = Ok true) ∧
          match_glob p excludes = Ok false) ∧
    (∀ p, p ∈ resolve_targets (_targets self) → stat w p = Some File →
          p ∈ cached ∧
          (match_glob p excludes = Ok true → p ∉ L) ∧
          (includes ≠ [] → match_glob p includes = Ok false → p ∉ L)).
Proof.
  intros Hinv (cached & included & kept & Hf & Hi & He & ->)%get_files_Ok.
  split; [apply NoDup_elements|].
  destruct (filtered_files_computed _ _ _ _ _ _ Hinv Hf) as [Hc _].
  exists cached. split; [done|]. split; [by apply filtered_files_hit|].
  assert (∀ p, p ∈ elements kept ↔
               p ∈ cached ∧
               (includes = [] ∨ match_glob p includes = Ok true) ∧
               match_glob p excludes = Ok false) as HL.
  { intros p. rewrite elem_of_elements, (filter_excludes_elem_of _ _ _ He),
      (filter_includes_elem_of _ _ _ Hi). intuition. }
  split; [done|]. intros p Hp Hfile. split; [|split].
  - eapply (filtered_files_keeps_non_directories w self self' lang t cached p); [done..|]. unfold is_directory. congruence.
  - intros Hm [_ [_ Hn]]%HL. congruence.
  - intros Hne Hm [_ [[?|Hn] _]]%HL; congruence.
Qed.

Lemma get_files_applies_local_filters_witness :
  get_files scenario_B (init [] [] ["main.go"] false) "go" [] ["*.go"]
  = (store (init [] [] ["main.go"] false) "go" {[of_string "main.go"]},
     ([EvStat (of_string "main.go")], Ok [])) ∧
  match_glob (of_string "main.go") ["*.go"] = Ok true ∧
  of_string "main.go" ∈ ({[of_string "main.go"]} : gset Path) ∧
  of_string "main.go" ∉ ([] : list Path).
Proof.
  split; [compute_done|]. split; [compute_done|].
  destruct (get_files_applies_local_filters scenario_B
              (init [] [] ["main.go"] false)
              (store (init [] [] ["main.go"] false) "go" {[of_string "main.go"]})
              "go" [] ["*.go"] [EvStat (of_string "main.go")] [])
    as (_ & cached & Hc & _ & _ & Hfile).
  - apply cache_inv_init.
  - compute_done.
  - destruct (Hfile (of_string "main.go")) as (Hin & Hex & _);
      [compute_done | compute_done |].
    cbn [_filtered_targets store] in Hc. rewrite lookup_insert_eq in Hc.
    injection Hc as <-. split; [exact Hin | apply Hex; compute_done].
Defined.

(** ** Targets that do not exist *)

(** C1, as the code has it. A target that does not exist is not a
    directory, so the partition of [filtered_files] takes it for an explicit
    file: it never reaches the test of [expand_targets] that drops missing
    paths, and it is in the set returned and in the list of [get_files].
    [expand_targets] alone, given the same path, drops it. *)
Lemma nonexistent_target_is_returned :
  stat nothing (of_string "ghost.py") = None ∧
  (filtered_files nothing (init [] [] ["ghost.py"] false) "python").2
  = ([EvStat (of_string "ghost.py")], Ok {[of_string "ghost.py"]}) ∧
  (get_files nothing (init [] [] ["ghost.py"] false) "python" [] []).2
  = ([EvStat (of_string "ghost.py")], Ok [of_string "ghost.py"]) ∧
  expand_targets nothing {[of_string "ghost.py"]} "python" false
  = ([EvStat (of_string "ghost.py")], Ok ∅).
Proof. repeat split; compute_done. Qed.

(** In any world, whatever is not a directory among the targets, missing
    paths included, is returned. *)
Lemma missing_targets_are_kept (w : World) (self self' : TargetManager)
    (lang : string) (t : list Event) (s : gset Path) (p : Path) :
  cache_inv w self → filtered_files w self lang = (self', (t, Ok s)) →
  p ∈ resolve_targets (_targets self) → stat w p = None → p ∈ s.
Proof.
  intros Hinv Hf Hp Hnone.
  apply (filtered_files_keeps_non_directories _ _ _ _ _ _ _ Hinv Hf Hp).
  unfold is_directory. congruence.
Qed.

(** ** Unsupported languages *)



(** What the loop of [expand_targets] does with one directory. *)
Lemma expand_targets_step_dir (w : World) (d : Path) (l : list Path)
    (lang : string) (git : bool) (expanded : gset Path)
    (body : gset Path → Path → IO (gset Path)) :
  stat_fails w d = false →
  is_directory w d →
  body = (λ expanded target,
    ex ← path_exists w target;
    if negb ex then mret expanded
    else
      d ← path_is_dir w target;
      if d : bool then
        files ← _expand_dir w target lang git;
        mret (expanded ∪ files)
      else mret (expanded ∪ {[target]})) →
  for_ (d :: l) expanded body =
  (([EvStat d; EvStat d], Ok ()) : IO unit) ≫= λ _,
    files ← _expand_dir w d lang git;
    for_ l (expanded ∪ files) body.
Proof.
  intros Hex Hd ->. cbn [for_]. unfold path_exists, path_is_dir. rewrite Hex.
  rewrite (bool_decide_eq_true_2 (is_Some (stat w d))) by (rewrite Hd; by eexists).
  rewrite (bool_decide_eq_true_2 (stat w d = Some Dir)) by done.
  destruct (_expand_dir w d lang git) as [t [files|e]];
    unfold mbind, IO_bind, mret, IO_ret; cbn [negb].
  - destruct (for_ l (expanded ∪ files) _) as [t' r]. simpl.
    by rewrite app_nil_r.
  - done.
Qed.



Lemma directories_spec (w : World) (targets : list string) (p : Path) :
  p ∈ directories w targets ↔ p ∈ resolve_targets targets ∧ is_directory w p.
Proof. unfold directories. rewrite elem_of_filter. tauto. Qed.




Lemma get_files_Raise (w : World) (self self' : TargetManager) (lang : string)
    (includes excludes : list string) (t : list Event) (e : exn) :
  filtered_files w self lang = (self', (t, Raise e)) →
  get_files w self lang includes excludes = (self', (t, Raise e)).
Proof. intros H. unfold get_files. by rewrite H. Qed.






(** A target that cannot be examined: the partition of [filtered_files]
    raises the error of the operating system, for any language. *)
Lemma unexaminable_target_raises :
  ¬ examinable locked (resolve_targets ["vault/key.py"]) ∧
  (filtered_files locked (init [] [] ["vault/key.py"] false) "ruby").2
  = ([EvStat (of_string "vault/key.py")], Raise OSError) ∧
  (filtered_files locked (init [] [] ["vault/key.py"] false) "python").2
  = ([EvStat (of_string "vault/key.py")], Raise OSError) ∧
  expand_targets locked {[of_string "vault/key.py"]} "python" false
  = ([EvStat (of_string "vault/key.py")], Raise OSError).
Proof. repeat split; compute_done. Qed.


(** ** Reading a listing *)

Lemma split_not_nil (sep : ascii) (s : string) : pystr.split sep s ≠ [].
Proof.
  induction s as [|c s IH]; simpl; [done|].
  destruct (decide (c = sep)); [done|]. by destruct (pystr.split sep s).
Qed.

Lemma joinpath_empty (d : Path) : joinpath d EmptyString = d.
Proof. destruct d as [r ns]. unfold joinpath. cbn. by rewrite app_nil_r. Qed.

(** An empty output is the only one that gives no path; an output that
    is not empty but holds white space only gives the directory itself. *)
Theorem _parse_output_empty (output : string) (curr_dir : Path) :
  (_parse_output output curr_dir = ∅ ↔ output = EmptyString) ∧
  (output ≠ EmptyString → pystr.strip output = EmptyString →
   _parse_output output curr_dir = {[curr_dir]}).
Proof.
  split; [split|].
  - destruct output as [|c output]; [done|]. unfold _parse_output. cbn [pystr.truthy].
    intros H. exfalso.
    destruct (pystr.split "010" (pystr.strip (String c output))) as [|l ls] eqn:Hs.
    { by apply split_not_nil in Hs. }
    assert (joinpath curr_dir l ∈ (∅ : gset Path)) as Hin
      by (rewrite <- H; cbn; set_solver).
    by apply not_elem_of_empty in Hin.
  - intros ->. reflexivity.
  - intros Hne Hstrip. unfold _parse_output. rewrite Hstrip.
    destruct output; [done|]. cbn. rewrite joinpath_empty. set_solver.
Qed.




















(** ** Directory expansion *)


Section git_loop_facts.
Context (w : World) (curr_dir : Path).

Lemma _expand_dir_git (language : string) :
  _expand_dir w curr_dir language true =
  (extensions ← pure_ (lang_to_exts language);
   for_ extensions (∅ : gset Path) (git_turn w curr_dir)).
Proof. reflexivity. Qed.



End git_loop_facts.



(** The white space that [_parse_output] strips is lost: a name that
    begins with a blank, listed first, is read without the blank. *)
Lemma _parse_output_leading_blank :
  _parse_output (printed [" a.py"; "b.py"]) (of_string "repo")
  = {[of_string "repo/a.py"; of_string "repo/b.py"]} ∧
  joinpath (of_string "repo") " a.py"
    ∉ _parse_output (printed [" a.py"; "b.py"]) (of_string "repo").
Proof. split; compute_done. Qed.




Section find_loop_facts.
Context (w : World) (curr_dir : Path).

Lemma _expand_dir_find (language : string) :
  _expand_dir w curr_dir language false =
  (extensions ← pure_ (lang_to_exts language);
   for_ extensions (∅ : gset Path) (find_turn w curr_dir)).
Proof. reflexivity. Qed.

Lemma find_turn_decoded (expanded : gset Path) (ext : string) :
  decoded (find_query w curr_dir ext) →
  find_turn w curr_dir expanded ext
  = ([EvSpawn (find_files curr_dir ext) None], Ok (expanded ∪ found_files w curr_dir ext)).
Proof.
  unfold find_turn, found_files, find_query, subprocess.run.
  destruct (spawn w (find_files curr_dir ext) None) as [rc out|rc|]; [|done..].
  intros _. by rewrite IO_bind_unfold, IO_ret_unfold.
Qed.

Lemma find_loop (exts : list string) (expanded : gset Path) :
  Forall (λ ext, decoded (find_query w curr_dir ext)) exts →
  for_ exts expanded (find_turn w curr_dir)
  = ((λ ext, EvSpawn (find_files curr_dir ext) None) <$> exts,
     Ok (expanded ∪ ⋃ (found_files w curr_dir <$> exts))).
Proof.
  revert expanded. induction exts as [|ext exts IH]; intros expanded Hall.
  - cbn. rewrite IO_ret_unfold. do 2 f_equal. set_solver.
  - apply Forall_cons in Hall as [H1 Hall]. cbn [for_].
    rewrite (find_turn_decoded _ _ H1), IO_bind_unfold, (IH _ Hall).
    cbn [fst snd]. rewrite !fmap_cons, union_list_cons.
    do 2 f_equal. set_solver.
Qed.

End find_loop_facts.

(** C9. Scenario A: with target [src], no pattern and the plain file
    system listing, the files for [python] are exactly [src/a.py] and
    [src/b.pyi]; [src/c.txt] is not among them. In every world in which
    the module gets the output of the searches, the expansion searches once
    for each extension of the language, for the names that end in that
    extension and for nothing else, and returns the union of what the
    searches list. *)
Theorem scenario_A_python :
  lang_to_exts "python" = Ok ["py"; "pyi"] ∧
  (filtered_files scenario_A (init [] [] ["src"] false) "python").2.2
  = Ok {[of_string "src/a.py"; of_string "src/b.pyi"]} ∧
  (∃ L, (get_files scenario_A (init [] [] ["src"] false) "python" [] []).2.2 = Ok L ∧
        NoDup L ∧
        ∀ p, p ∈ L ↔ p = of_string "src/a.py" ∨ p = of_string "src/b.pyi") ∧
  stat scenario_A (of_string "src/c.txt") = Some File ∧
  (of_string "src/c.txt"
     ∉ ({[of_string "src/a.py"; of_string "src/b.pyi"]} : gset Path)) ∧
  ∀ w curr_dir language exts,
    lang_to_exts language = Ok exts →
    Forall (λ ext, decoded (find_query w curr_dir ext)) exts →
    _expand_dir w curr_dir language false
    = ((λ ext, EvSpawn ["find"; str curr_dir; "-type"; "f"; "-name"; "*." +:+ ext] None)
         <$> exts,
       Ok (⋃ ((λ ext, _parse_output (stdout_of (find_query w curr_dir ext))
                                    (of_string ".")) <$> exts))).
Proof.
  split; [compute_done|]. split; [compute_done|]. split; [|split; [compute_done|split]].
  - exists (elements ({[of_string "src/a.py"; of_string "src/b.pyi"]} : gset Path)).
    split; [compute_done|]. split; [apply NoDup_elements|].
    intros p. rewrite elem_of_elements. set_solver.
  - compute_done.
  - intros w curr_dir language exts Hlang Hdecoded.
    rewrite _expand_dir_find, Hlang, pure_bind_Ok.
    rewrite (find_loop w curr_dir exts ∅ Hdecoded). do 2 f_equal.
    unfold found_files. set_solver.
Qed.

(** ** When [filtered_files] returns *)

Lemma _expand_dir_plain (w : World) (curr_dir : Path) (language : string)
    (exts : list string) :
  lang_to_exts language = Ok exts →
  Forall (λ ext, decoded (find_query w curr_dir ext)) exts →
  _expand_dir w curr_dir language false
  = ((λ ext, EvSpawn (find_files curr_dir ext) None) <$> exts,
     Ok (∅ ∪ ⋃ (found_files w curr_dir <$> exts))).
Proof.
  intros Hlang Hdecoded. rewrite _expand_dir_find, Hlang, pure_bind_Ok.
  by apply find_loop.
Qed.

Lemma expand_targets_loop_returns (w : World) (l : list Path) (lang : string)
    (exts : list string) (expanded : gset Path) :
  lang_to_exts lang = Ok exts →
  (∀ d, d ∈ l → stat_fails w d = false ∧ is_directory w d ∧
                Forall (λ ext, decoded (find_query w d ext)) exts) →
  ∃ t S,
    for_ l expanded (λ expanded target,
      ex ← path_exists w target;
      if negb ex then mret expanded
      else
        d ← path_is_dir w target;
        if d : bool then
          files ← _expand_dir w target lang false;
          mret (expanded ∪ files)
        else mret (expanded ∪ {[target]}))
    = (t, Ok S).
Proof.
  intros Hlang. revert expanded. induction l as [|d l IH]; intros expanded Hall.
  - by exists [], expanded.
  - destruct (Hall d) as (Hex & Hd & Hst); [left|].
    erewrite expand_targets_step_dir; [|done|done|reflexivity].
    rewrite IO_bind_unfold, (_expand_dir_plain _ _ _ _ Hlang Hst), IO_bind_unfold.
    cbn [fst snd].
    destruct (IH (expanded ∪ (∅ ∪ ⋃ (found_files w d <$> exts)))) as (t & S & ->).
    { intros d' Hd'. apply Hall. by right. }
    cbn [fst snd]. by eexists _, _.
Qed.

(** [filtered_files] returns a set, and raises nothing, when the language
    is supported, the operating system lets every target be examined, the
    plain listing is used, in every directory among the targets [find] can
    be started and what it writes is UTF-8, and no global pattern is
    empty. *)
Theorem filtered_files_returns (w : World) (self : TargetManager)
    (lang : string) (exts : list string) :
  lang_to_exts lang = Ok exts →
  _visible_to_git_only self = false →
  examinable w (resolve_targets (_targets self)) →
  (∀ d, d ∈ directories w (_targets self) →
        Forall (λ ext, decoded (find_query w d ext)) exts) →
  Forall nonempty_pattern (_includes self) →
  Forall nonempty_pattern (_excludes self) →
  ∃ self' t s, filtered_files w self lang = (self', (t, Ok s)).
Proof.
  intros Hlang Hgit Hex Hfind Hinc Hexc. unfold filtered_files.
  destruct (_filtered_targets self !! lang) as [c|]; [by eexists _, _, _|].
  rewrite (filtered_files_miss_stages _ _ _ Hex). cbn zeta. rewrite Hgit.
  destruct (expand_targets_loop_returns w (elements (directories w (_targets self)))
              lang exts ∅ Hlang) as (t & S & Hexp).
  { intros d Hd%elem_of_elements. split; [|split; [|by apply Hfind]].
    - by apply directories_spec in Hd as [?%Hex _].
    - by apply directories_spec in Hd as [_ ?]. }
  unfold expand_targets. rewrite Hexp. cbn [fst snd mbind Res_bind].
  unfold global_filters.
  destruct (filter_includes_returns S _ Hinc) as [included ->]. cbn [mbind Res_bind].
  destruct (filter_excludes_returns included _ Hexc) as [kept ->]. cbn [mbind Res_bind].
  by eexists _, _, _.
Qed.

Lemma filtered_files_returns_witness :
  ∃ self' t s,
    filtered_files scenario_A (init ["src"] ["tests"] ["src"] false) "python"
    = (self', (t, Ok s)).
Proof.
  apply (filtered_files_returns scenario_A (init ["src"] ["tests"] ["src"] false)
           "python" ["py"; "pyi"]).
  - compute_done.
  - compute_done.
  - done.
  - intros d Hd.
    assert (d = of_string "src") as ->.
    { revert Hd. change (directories scenario_A (_targets (init ["src"] ["tests"] ["src"] false)))
        with (directories scenario_A ["src"]).
      assert (directories scenario_A ["src"] = {[of_string "src"]}) as -> by compute_done.
      by intros ->%elem_of_singleton. }
    compute_done.
  - compute_done.
  - compute_done.
Defined.

(** The table of languages: a supported identifier has at least one
    extension, and an identifier outside the table raises
    [UnknownLanguageError] with the message of the source. *)
Theorem lang_to_exts_table (language : string) :
  match lang_to_exts language with
  | Ok exts =>
      exts ≠ [] ∧
      language ∈ ["python"; "python2"; "python3"; "py"; "js"; "javascript";
                  "java"; "c"; "go"; "golang"; "ml"; "ocaml"]
  | Raise e =>
      e = UnknownLanguageError ("Unsupported Language: " +:+ language) ∧
      language ∉ ["python"; "python2"; "python3"; "py"; "js"; "javascript";
                  "java"; "c"; "go"; "golang"; "ml"; "ocaml"]
  end.
Proof.
  unfold lang_to_exts.
  repeat case_bool_decide; (split; [done | set_solver]).
Qed.

(** Resolution is lexical: every target, absolute or not, resolves to the
    path its string denotes (joining a relative target to [Path(".")]
    leaves it as it is), and equal paths are one element of the set. *)
Theorem resolve_targets_lexical (targets : list string) :
  resolve_targets targets = list_to_set (of_string <$> targets).
Proof.
  unfold resolve_targets. f_equal. apply list_fmap_ext. intros _ target _.
  unfold joinpath. destruct (is_absolute (of_string target)) eqn:Habs; [done|].
  unfold is_absolute in Habs. apply bool_decide_eq_false in Habs.
  destruct (of_string target) as [r ns]. cbn in *.
  f_equal. destruct (decide (r = EmptyString)) as [->|]; [done|]. by destruct Habs.
Qed.

(** ** [expand_targets] on paths that are not directories *)

Lemma expand_targets_step_other (w : World) (p : Path) (l : list Path)
    (lang : string) (git : bool) (expanded : gset Path)
    (body : gset Path → Path → IO (gset Path)) :
  stat_fails w p = false →
  ¬ is_directory w p →
  body = (λ expanded target,
    ex ← path_exists w target;
    if negb ex then mret expanded
    else
      d ← path_is_dir w target;
      if d : bool then
        files ← _expand_dir w target lang git;
        mret (expanded ∪ files)
      else mret (expanded ∪ {[target]})) →
  for_ (p :: l) expanded body =
  match stat w p with
  | None => (([EvStat p], Ok ()) : IO unit) ≫= λ _, for_ l expanded body
  | Some _ =>
      (([EvStat p; EvStat p], Ok ()) : IO unit) ≫= λ _,
        for_ l (expanded ∪ {[p]}) body
  end.
Proof.
  intros Hex Hd ->. cbn [for_]. unfold path_exists, path_is_dir. rewrite Hex.
  rewrite (bool_decide_eq_false_2 (stat w p = Some Dir)) by done.
  destruct (stat w p) as [k|] eqn:Hs.
  - rewrite (bool_decide_eq_true_2 (is_Some (Some k))) by by eexists.
    unfold mbind, IO_bind, mret, IO_ret; cbn [negb].
    destruct (for_ l (expanded ∪ {[p]}) _) as [t' r]. simpl. by rewrite ?app_nil_r.
  - rewrite (bool_decide_eq_false_2 (is_Some None)) by (by intros [? ?]).
    unfold mbind, IO_bind, mret, IO_ret; cbn [negb].
    destruct (for_ l expanded _) as [t' r]. simpl. by rewrite ?app_nil_r.
Qed.

Lemma expand_targets_loop_others (w : World) (l : list Path) (lang : string)
    (git : bool) (expanded : gset Path) :
  (∀ p, p ∈ l → stat_fails w p = false) →
  (∀ p, p ∈ l → ¬ is_directory w p) →
  ∃ t,
    Forall is_stat t ∧
    for_ l expanded (λ expanded target,
      ex ← path_exists w target;
      if negb ex then mret expanded
      else
        d ← path_is_dir w target;
        if d : bool then
          files ← _expand_dir w target lang git;
          mret (expanded ∪ files)
        else mret (expanded ∪ {[target]}))
    = (t, Ok (expanded ∪ list_to_set (filter (λ p, is_Some (stat w p)) l))).
Proof.
  revert expanded. induction l as [|p l IH]; intros expanded Hex Hall.
  - exists []. split; [constructor|]. rewrite filter_nil. cbn.
    rewrite IO_ret_unfold. do 2 f_equal. set_solver.
  - erewrite expand_targets_step_other; [|apply Hex; left|apply Hall; left|reflexivity].
    destruct (stat w p) as [k|] eqn:Hs.
    + destruct (IH (expanded ∪ {[p]})) as (t & Ht & ->);
        [intros q Hq; apply Hex; by right|intros q Hq; apply Hall; by right|].
      rewrite IO_bind_unfold. cbn [fst snd].
      exists ([EvStat p; EvStat p] ++ t). split.
      * apply Forall_app. split; [by repeat constructor | done].
      * rewrite filter_cons_True by (rewrite Hs; by eexists).
        do 2 f_equal. set_solver.
    + destruct (IH expanded) as (t & Ht & ->);
        [intros q Hq; apply Hex; by right|intros q Hq; apply Hall; by right|].
      rewrite IO_bind_unfold. cbn [fst snd].
      exists ([EvStat p] ++ t). split.
      * apply Forall_app. split; [by repeat constructor | done].
      * rewrite filter_cons_False by (rewrite Hs; by intros [? ?]). done.
Qed.

(** Handed no directory, and paths that the operating system lets it
    examine, [expand_targets] returns the targets that exist and leaves out
    those that do not; it asks the file system about each path and does
    nothing else: it starts no process and does not look the language up, so
    it returns for an unsupported language too. *)
Theorem expand_targets_without_directories (w : World) (targets : gset Path)
    (lang : string) (git : bool) :
  examinable w targets →
  (∀ p, p ∈ targets → stat w p ≠ Some Dir) →
  ∃ t,
    Forall is_stat t ∧
    expand_targets w targets lang git
    = (t, Ok (filter (λ p, is_Some (stat w p)) targets)).
Proof.
  intros Hex Hnd. unfold expand_targets.
  destruct (expand_targets_loop_others w (elements targets) lang git ∅)
    as (t & Ht & ->).
  { intros p Hp%elem_of_elements. by apply Hex. }
  { intros p Hp%elem_of_elements. by apply Hnd. }
  exists t. split; [done|]. do 2 f_equal. apply set_eq. intros p.
  rewrite elem_of_union, elem_of_list_to_set, list_elem_of_filter,
    elem_of_filter, elem_of_elements. set_solver.
Qed.

Lemma expand_targets_without_directories_witness :
  ∃ t,
    Forall is_stat t ∧
    expand_targets scenario_B {[of_string "main.go"; of_string "ghost.go"]} "ruby" true
    = (t, Ok (filter (λ p, is_Some (stat scenario_B p))
                     ({[of_string "main.go"; of_string "ghost.go"]} : gset Path))).
Proof.
  apply (expand_targets_without_directories scenario_B
           {[of_string "main.go"; of_string "ghost.go"]} "ruby" true); [done|].
  intros p Hp. destruct (stat scenario_B p) as [[]|] eqn:Hs; [done| |done].
  exfalso. revert Hs.
  assert (p = of_string "main.go" ∨ p = of_string "ghost.go") as [-> | ->]
    by set_solver; compute_done.
Defined.

(** ** What the filters keep *)

(** [filter_includes] with patterns keeps exactly the elements that match:
    what it returns is the part of the set on which [match_glob] is true,
    each element has a pattern that matches it or one of its ancestors, and
    no matching element is lost. *)
Theorem filter_includes_exact (S : gset Path) (includes : list string)
    (R : gset Path) :
  includes ≠ [] →
  filter_includes S includes = Ok R →
  R ⊆ S ∧
  (∀ e, e ∈ R ↔ e ∈ S ∧ match_glob e includes = Ok true) ∧
  ∀ e, e ∈ R →
    ∃ p glob, p ∈ e :: parents e ∧ glob ∈ includes ∧ match_ p glob = Ok true.
Proof.
  intros Hne HR. pose proof (filter_includes_elem_of _ _ _ HR) as Hin.
  assert (∀ e, e ∈ R ↔ e ∈ S ∧ match_glob e includes = Ok true) as Hiff.
  { intros e. rewrite Hin. intuition. }
  split; [|split; [done|]].
  - intros e He. by apply Hiff in He as [? _].
  - intros e [_ Hm]%Hiff. by apply match_glob_true.
Qed.

Lemma filter_includes_exact_witness :
  filter_includes {[of_string "src/a.py"; of_string "docs/b.py"]} ["src"; "lib"]
  = Ok {[of_string "src/a.py"]} ∧
  ∃ p glob, p ∈ of_string "src/a.py" :: parents (of_string "src/a.py") ∧
            glob ∈ ["src"; "lib"] ∧ match_ p glob = Ok true.
Proof.
  split; [compute_done|].
  destruct (filter_includes_exact
              {[of_string "src/a.py"; of_string "docs/b.py"]} ["src"; "lib"]
              {[of_string "src/a.py"]}) as (_ & _ & H); [done | compute_done |].
  apply H. compute_done.
Defined.

(** [filter_excludes] loses nothing it should keep: an element on which
    [match_glob] is false is in the result. With the claim on what it
    removes, the result is exactly the part of the set that matches no
    pattern. *)
Theorem filter_excludes_exact (S : gset Path) (excludes : list string)
    (R : gset Path) :
  filter_excludes S excludes = Ok R →
  ∀ e, e ∈ R ↔ e ∈ S ∧ match_glob e excludes = Ok false.
Proof. apply filter_excludes_elem_of. Qed.

Lemma filter_excludes_exact_witness :
  of_string "src/a.py" ∈ ({[of_string "src/a.py"]} : gset Path) ↔
  of_string "src/a.py"
    ∈ ({[of_string "src/a.py"; of_string "tests/b.py"]} : gset Path) ∧
  match_glob (of_string "src/a.py") ["tests"] = Ok false.
Proof.
  apply (filter_excludes_exact {[of_string "src/a.py"; of_string "tests/b.py"]}
           ["tests"] {[of_string "src/a.py"]}).
  compute_done.
Defined.

Lemma match_glob_app (path : Path) (globs1 globs2 : list string) :
  match_glob path (globs1 ++ globs2) = Ok false ↔
  match_glob path globs1 = Ok false ∧ match_glob path globs2 = Ok false.
Proof.
  rewrite !match_glob_false. split.
  - intros H. split; intros p glob Hp Hg; apply H; try done;
      apply elem_of_app; auto.
  - intros [H1 H2] p glob Hp [Hg|Hg]%elem_of_app; auto.
Qed.

(** Two exclude passes are one pass with both lists: when no pattern is
    empty, excluding by [P1] and then by [P2], as the global and the local
    layer do, gives the set that excluding by [P1 ++ P2] gives. *)
Theorem filter_excludes_twice (S : gset Path) (P1 P2 : list string) :
  Forall nonempty_pattern P1 → Forall nonempty_pattern P2 →
  ∃ R1 R2,
    filter_excludes S P1 = Ok R1 ∧
    filter_excludes R1 P2 = Ok R2 ∧
    filter_excludes S (P1 ++ P2) = Ok R2.
Proof.
  intros H1 H2.
  destruct (filter_excludes_returns S P1 H1) as [R1 HR1].
  destruct (filter_excludes_returns R1 P2 H2) as [R2 HR2].
  destruct (filter_excludes_returns S (P1 ++ P2)) as [R HR];
    [by apply Forall_app|].
  exists R1, R2. split; [done|]. split; [done|]. rewrite HR. f_equal.
  apply set_eq. intros e.
  rewrite (filter_excludes_elem_of _ _ _ HR), (filter_excludes_elem_of _ _ _ HR2),
    (filter_excludes_elem_of _ _ _ HR1), match_glob_app. tauto.
Qed.

Lemma filter_excludes_twice_witness :
  ∃ R1 R2,
    filter_excludes {[of_string "src/a.py"; of_string "tests/b.py"]} ["tests"] = Ok R1 ∧
    filter_excludes R1 ["*.py"] = Ok R2 ∧
    filter_excludes {[of_string "src/a.py"; of_string "tests/b.py"]}
                    (["tests"] ++ ["*.py"]) = Ok R2.
Proof.
  apply (filter_excludes_twice {[of_string "src/a.py"; of_string "tests/b.py"]}
           ["tests"] ["*.py"]); repeat constructor; compute_done.
Defined.

(** ** What [filtered_files] returns *)

(** Every path [filtered_files] returns is a target that is not a
    directory, or comes from the expansion of the targets that are
    directories and passes the global filters: it matches an include
    pattern when there is one, and it matches no exclude pattern. *)
Theorem filtered_files_members (w : World) (self self' : TargetManager)
    (lang : string) (t : list Event) (s : gset Path) :
  cache_inv w self →
  filtered_files w self lang = (self', (t, Ok s)) →
  ∃ expanded,
    (expand_targets w (directories w (_targets self)) lang
       (_visible_to_git_only self)).2 = Ok expanded ∧
    ∀ p, p ∈ s ↔
      (p ∈ resolve_targets (_targets self) ∧ stat w p ≠ Some Dir) ∨
      (p ∈ expanded ∧
       (_includes self = [] ∨ match_glob p (_includes self) = Ok true) ∧
       match_glob p (_excludes self) = Ok false).
Proof.
  intros Hinv Hf.
  destruct (filtered_files_computed _ _ _ _ _ _ Hinv Hf) as [_ Hm].
  pose proof (filtered_files_miss_examined _ _ _ _ Hm) as Hex.
  rewrite (filtered_files_miss_stages _ _ _ Hex) in Hm. cbn zeta in Hm. cbn [snd] in Hm.
  destruct (expand_targets _ _ _ _).2 as [expanded|e]; [|done].
  exists expanded. split; [done|].
  apply global_filters_Ok in Hm as (kept & -> & Hkept). intros p.
  rewrite elem_of_union, Hkept. unfold explicit_files.
  rewrite elem_of_filter. unfold is_directory. tauto.
Qed.

Lemma filtered_files_members_witness :
  ∃ expanded,
    (expand_targets scenario_A (directories scenario_A ["src"; "src/c.txt"])
       "python" false).2 = Ok expanded ∧
    ∀ p, p ∈ ({[of_string "src/b.pyi"; of_string "src/c.txt"]} : gset Path) ↔
      (p ∈ resolve_targets ["src"; "src/c.txt"] ∧ stat scenario_A p ≠ Some Dir) ∨
      (p ∈ expanded ∧
       (["*.pyi"] = [] ∨ match_glob p ["*.pyi"] = Ok true) ∧
       match_glob p ["tests"] = Ok false).
Proof.
  apply (filtered_files_members scenario_A
           (init ["*.pyi"] ["tests"] ["src"; "src/c.txt"] false)
           (store (init ["*.pyi"] ["tests"] ["src"; "src/c.txt"] false) "python"
              {[of_string "src/b.pyi"; of_string "src/c.txt"]})
           "python"
           (filtered_files scenario_A
              (init ["*.pyi"] ["tests"] ["src"; "src/c.txt"] false) "python").2.1
           {[of_string "src/b.pyi"; of_string "src/c.txt"]}).
  - apply cache_inv_init.
  - compute_done.
Defined.

(** ** What a call leaves alone *)

Lemma filtered_files_frame (w : World) (self self' : TargetManager)
    (lang : string) (r : IO (gset Path)) :
  filtered_files w self lang = (self', r) →
  _targets self' = _targets self ∧ _includes self' = _includes self ∧
  _excludes self' = _excludes self ∧
  _visible_to_git_only self' = _visible_to_git_only self ∧
  (∀ l, l ≠ lang → _filtered_targets self' !! l = _filtered_targets self !! l) ∧
  (∀ c, _filtered_targets self !! lang = Some c → self' = self) ∧
  (∀ e, r.2 = Raise e → self' = self).
Proof.
  destruct r as [t [s|e]].
  - intros [(Hc & -> & _)|(Hnone & -> & _)]%filtered_files_Ok.
    + by repeat split.
    + repeat split; try done.
      * intros l Hl. cbn [_filtered_targets store]. by rewrite lookup_insert_ne.
      * intros c Hc. congruence.
  - intros (_ & -> & _)%filtered_files_Raise. by repeat split.
Qed.

(** A call of [get_files] never changes the targets, the global patterns
    or the flag of the manager, never touches the cached set of another
    language and never stores the local patterns or their result. The
    manager is left exactly as it was when the language is already cached,
    and when [filtered_files] raises. Otherwise the set [filtered_files]
    returns is stored before the local filters run: it is in the cache
    whatever they do, also when they raise. *)
Theorem get_files_frame (w : World) (self self' : TargetManager)
    (lang : string) (includes excludes : list string) (r : IO (list Path)) :
  get_files w self lang includes excludes = (self', r) →
  _targets self' = _targets self ∧ _includes self' = _includes self ∧
  _excludes self' = _excludes self ∧
  _visible_to_git_only self' = _visible_to_git_only self ∧
  (∀ l, l ≠ lang → _filtered_targets self' !! l = _filtered_targets self !! l) ∧
  (∀ c, _filtered_targets self !! lang = Some c → self' = self) ∧
  (∀ e, (filtered_files w self lang).2.2 = Raise e → self' = self ∧ r.2 = Raise e) ∧
  (∀ s, _filtered_targets self !! lang = None →
        (filtered_files w self lang).2.2 = Ok s →
        self' = store self lang s).
Proof.
  intros Hg. pose proof (get_files_fst w self lang includes excludes) as Hfst.
  rewrite Hg in Hfst. cbn [fst] in Hfst.
  destruct (filtered_files w self lang) as [self1 r1] eqn:Hf. cbn [fst] in Hfst.
  subst self1.
  destruct (filtered_files_frame _ _ _ _ _ Hf) as (H1 & H2 & H3 & H4 & H5 & H6 & _).
  do 6 (split; [done|]). split.
  - intros e He. destruct r1 as [t1 [s|e']]; cbn [snd] in He; [done|].
    injection He as ->.
    rewrite (get_files_Raise _ _ _ _ _ _ _ _ Hf) in Hg.
    apply filtered_files_Raise in Hf as (_ & -> & _).
    injection Hg as <-. by split.
  - intros s Hnone Hs. destruct r1 as [t1 [s'|e]]; cbn [snd] in Hs; [|done].
    injection Hs as ->.
    apply filtered_files_Ok in Hf as [(Hc & _)|(_ & -> & _)]; [congruence | done].
Qed.

Lemma get_files_frame_witness :
  (get_files scenario_B (init [] [] ["main.go"] false) "go" [""] []).2.2
  = Raise (ValueError "empty pattern") ∧
  (get_files scenario_B (init [] [] ["main.go"] false) "go" [""] []).1
  = store (init [] [] ["main.go"] false) "go" {[of_string "main.go"]} ∧
  _filtered_targets
    (get_files scenario_B (init [] [] ["main.go"] false) "go" [""] []).1 !! "python"
  = None.
Proof.
  split; [compute_done|].
  destruct (get_files_frame scenario_B (init [] [] ["main.go"] false)
              (get_files scenario_B (init [] [] ["main.go"] false) "go" [""] []).1
              "go" [""] []
              (get_files scenario_B (init [] [] ["main.go"] false) "go" [""] []).2)
    as (_ & _ & _ & _ & Hother & _ & _ & Hstored).
  - by destruct (get_files scenario_B _ _ _ _).
  - split; [apply Hstored; compute_done|]. by rewrite Hother.
Defined.

(** ** The cache is transparent *)

Lemma filtered_files_fst_config (w : World) (self : TargetManager) (lang : string) :
  _targets (filtered_files w self lang).1 = _targets self ∧
  _includes (filtered_files w self lang).1 = _includes self ∧
  _excludes (filtered_files w self lang).1 = _excludes self ∧
  _visible_to_git_only (filtered_files w self lang).1 = _visible_to_git_only self.
Proof.
  destruct (filtered_files w self lang) as [self' r] eqn:Hf.
  destruct (filtered_files_frame _ _ _ _ _ Hf) as (? & ? & ? & ? & _). done.
Qed.

Lemma reachable_config (w : World) (fresh self : TargetManager) :
  reachable w fresh self →
  _targets self = _targets fresh ∧ _includes self = _includes fresh ∧
  _excludes self = _excludes fresh ∧
  _visible_to_git_only self = _visible_to_git_only fresh.
Proof.
  induction 1 as [|self lang _ (H1 & H2 & H3 & H4)
                  |self lang includes excludes _ (H1 & H2 & H3 & H4)]; [done| |].
  - destruct (filtered_files_fst_config w self lang) as (-> & -> & -> & ->). done.
  - rewrite get_files_fst.
    destruct (filtered_files_fst_config w self lang) as (-> & -> & -> & ->). done.
Qed.

Lemma reachable_cache_inv (w : World) (fresh self : TargetManager) :
  cache_inv w fresh → reachable w fresh self → cache_inv w self.
Proof.
  intros Hfresh. induction 1 as [|self lang _ IH|self lang includes excludes _ IH];
    [done| |].
  - destruct (filtered_files w self lang) as [self' r] eqn:Hf.
    by eapply cache_inv_filtered_files.
  - destruct (get_files w self lang includes excludes) as [self' r] eqn:Hg.
    by eapply cache_inv_get_files.
Qed.

Lemma filtered_files_miss_config (w : World) (self1 self2 : TargetManager)
    (lang : string) :
  _targets self1 = _targets self2 → _includes self1 = _includes self2 →
  _excludes self1 = _excludes self2 →
  _visible_to_git_only self1 = _visible_to_git_only self2 →
  filtered_files_miss w self1 lang = filtered_files_miss w self2 lang.
Proof. intros H1 H2 H3 H4. unfold filtered_files_miss. by rewrite H1, H2, H3, H4. Qed.

Lemma filtered_files_result_miss (w : World) (self : TargetManager) (lang : string) :
  _filtered_targets self !! lang = None →
  (filtered_files w self lang).2.2 = (filtered_files_miss w self lang).2.
Proof.
  intros H. unfold filtered_files. rewrite H.
  by destruct (filtered_files_miss w self lang) as [t [s|e]].
Qed.

(** In a file system that does not change, the cache cannot be seen: a
    manager that has answered any calls, for any languages and with any
    local patterns, returns (or raises) for every language what a manager
    just created with the same arguments does. *)
Theorem cache_is_transparent (w : World) (includes excludes targets : list string)
    (visible_to_git_only : bool) (self : TargetManager) (lang : string) :
  reachable w (init includes excludes targets visible_to_git_only) self →
  (filtered_files w self lang).2.2
  = (filtered_files w (init includes excludes targets visible_to_git_only) lang).2.2.
Proof.
  intros Hreach.
  pose proof (reachable_cache_inv _ _ _ (cache_inv_init w _ _ _ _) Hreach) as Hinv.
  destruct (reachable_config _ _ _ Hreach) as (H1 & H2 & H3 & H4).
  rewrite (filtered_files_result_miss w (init _ _ _ _)) by apply lookup_empty.
  rewrite <- (filtered_files_miss_config w self _ lang H1 H2 H3 H4).
  destruct (_filtered_targets self !! lang) as [s|] eqn:Hc.
  - rewrite (filtered_files_hit _ _ _ _ Hc). cbn [snd]. symmetry. by apply Hinv.
  - by apply filtered_files_result_miss.
Qed.

Lemma cache_is_transparent_witness :
  (filtered_files scenario_A
     (get_files scenario_A
        (filtered_files scenario_A (init [] ["tests"] ["src"] false) "go").1
        "python" ["*.pyi"] []).1 "python").2.2
  = (filtered_files scenario_A (init [] ["tests"] ["src"] false) "python").2.2.
Proof.
  apply (cache_is_transparent scenario_A [] ["tests"] ["src"] false).
  apply reachable_get_files, reachable_filtered_files, reachable_fresh.
Defined.

(** ** Which processes are started *)

Section traces.
Context (P : Event → Prop).

Lemma IO_bind_trace {A B} (m : IO A) (f : A → IO B) :
  Forall P m.1 → (∀ a, Forall P (f a).1) → Forall P (m ≫= f).1.
Proof.
  destruct m as [t [a|e]]; cbn [fst]; intros Ht Hf; [|done].
  rewrite IO_bind_unfold. cbn [fst]. apply Forall_app. split; [done | apply Hf].
Qed.

Lemma for__trace {A S} (l : list A) (s : S) (body : S → A → IO S) :
  (∀ s x, Forall P (body s x).1) → Forall P (for_ l s body).1.
Proof.
  intros Hbody. revert s. induction l as [|x l IH]; intros s; cbn [for_].
  - constructor.
  - by apply IO_bind_trace.
Qed.

Lemma pure__trace {A} (r : Res A) : Forall P (pure_ r).1.
Proof. constructor. Qed.

Lemma mret_trace {A} (a : A) : Forall P (mret a : IO A).1.
Proof. constructor. Qed.

End traces.

Lemma git_turn_trace (w : World) (curr_dir : Path) (expanded : gset Path)
    (ext : string) :
  Forall (spawns_only "git") (git_turn w curr_dir expanded ext).1.
Proof.
  unfold git_turn, try_except, subprocess.check_output, path_resolve.
  unfold mbind, IO_bind, mret, IO_ret, pure_. cbn [fst snd].
  destruct (spawn w (git_tracked ext) _) as [rc1 out1|rc1|];
    [destruct (decide (rc1 = 0%Z))|..]; cbn [fst snd];
    [destruct (spawn w (git_untracked ext) _) as [rc2 out2|rc2|];
       [destruct (decide (rc2 = 0%Z))|..]|..];
    cbn [fst snd app]; by repeat constructor.
Qed.

Lemma find_turn_trace (w : World) (curr_dir : Path) (expanded : gset Path)
    (ext : string) :
  Forall (spawns_only "find") (find_turn w curr_dir expanded ext).1.
Proof.
  unfold find_turn, subprocess.run. unfold mbind, IO_bind, mret, IO_ret.
  destruct (spawn w (find_files curr_dir ext) None); cbn [fst snd app];
    by repeat constructor.
Qed.

Lemma _expand_dir_trace (w : World) (curr_dir : Path) (language : string)
    (git : bool) :
  Forall (spawns_only (if git then "git" else "find"))
         (_expand_dir w curr_dir language git).1.
Proof.
  destruct git.
  - rewrite _expand_dir_git. apply IO_bind_trace; [apply pure__trace|].
    intros exts. apply for__trace. intros. apply git_turn_trace.
  - rewrite _expand_dir_find. apply IO_bind_trace; [apply pure__trace|].
    intros exts. apply for__trace. intros. apply find_turn_trace.
Qed.

Lemma expand_targets_trace (w : World) (targets : gset Path) (lang : string)
    (git : bool) :
  Forall (spawns_only (if git then "git" else "find"))
         (expand_targets w targets lang git).1.
Proof.
  unfold expand_targets. apply for__trace. intros expanded target.
  apply IO_bind_trace; [by repeat constructor|]. intros ex.
  destruct (negb ex); [apply mret_trace|].
  apply IO_bind_trace; [by repeat constructor|]. intros [].
  - apply IO_bind_trace; [apply _expand_dir_trace|]. intros. apply mret_trace.
  - apply mret_trace.
Qed.

Lemma get_files_trace (w : World) (self : TargetManager) (lang : string)
    (includes excludes : list string) :
  (get_files w self lang includes excludes).2.1 = (filtered_files w self lang).2.1.
Proof.
  unfold get_files. destruct (filtered_files w self lang) as [self' [t [s|e]]]; [|done].
  cbn [snd]. rewrite IO_bind_unfold. cbn [fst].
  destruct (filter_includes s includes) as [included|e];
    [rewrite pure_bind_Ok | rewrite pure_bind_Raise; cbn [fst]; by rewrite app_nil_r].
  destruct (filter_excludes included excludes) as [kept|e];
    [rewrite pure_bind_Ok | rewrite pure_bind_Raise; cbn [fst]; by rewrite app_nil_r].
  rewrite IO_ret_unfold. cbn [fst]. by rewrite app_nil_r.
Qed.

Lemma filtered_files_miss_trace (w : World) (self : TargetManager) (lang : string) :
  Forall (spawns_only (if _visible_to_git_only self then "git" else "find"))
         (filtered_files_miss w self lang).1.
Proof.
  unfold filtered_files_miss. apply IO_bind_trace.
  - unfold partition_set. apply for__trace. intros [yes no] x.
    apply IO_bind_trace; [by repeat constructor|]. intros b. apply mret_trace.
  - intros [explicit dirs].
    apply IO_bind_trace; [apply expand_targets_trace|]. intros expanded.
    apply IO_bind_trace; [apply pure__trace|]. intros included.
    apply IO_bind_trace; [apply pure__trace|]. intros kept. apply mret_trace.
Qed.

(** The flag chooses the lister for the whole call: with
    [visible_to_git_only] every process [get_files] starts is [git], and
    [find] is never run; without it every process is [find], and [git] is
    never run. *)
Theorem lister_selection (w : World) (self : TargetManager) (lang : string)
    (includes excludes : list string) :
  Forall (spawns_only (if _visible_to_git_only self then "git" else "find"))
         (get_files w self lang includes excludes).2.1 ∧
  Forall (spawns_only (if _visible_to_git_only self then "git" else "find"))
         (filtered_files w self lang).2.1.
Proof.
  rewrite get_files_trace.
  assert (Forall (spawns_only (if _visible_to_git_only self then "git" else "find"))
                 (filtered_files w self lang).2.1) as H; [|done].
  unfold filtered_files. destruct (_filtered_targets self !! lang) as [c|].
  { constructor. }
  pose proof (filtered_files_miss_trace w self lang) as Ht.
  by destruct (filtered_files_miss w self lang) as [t [s|e]].
Qed.

(** ** The plain listing and the exit status of [find] *)





(** ** The first failing query ends the expansion *)

(** With [visible_to_git_only], when the query for the tracked files of
    the first extension exits with a nonzero status, that query is the
    only process started: the untracked files are not asked for and no
    other extension is tried before [NotGitProjectError] is raised. *)
Theorem git_expansion_stops_at_first_failure (w : World) (curr_dir : Path)
    (language ext : string) (exts : list string) (rc : Z) (out : string) :
  lang_to_exts language = Ok (ext :: exts) →
  tracked_query w curr_dir ext = Exited rc out →
  rc ≠ 0%Z →
  _expand_dir w curr_dir language true
  = ([EvResolve curr_dir;
      EvSpawn (git_tracked ext) (Some (resolved w curr_dir));
      EvResolve curr_dir],
     Raise (NotGitProjectError
              (str (resolved w curr_dir) +:+ " is not a git repository."))).
Proof.
  intros Hlang Hq Hrc. rewrite _expand_dir_git, Hlang, pure_bind_Ok. cbn [for_].
  unfold git_turn, try_except, subprocess.check_output, path_resolve.
  unfold tracked_query in Hq.
  unfold mbind, IO_bind, mret, IO_ret, pure_. cbn [fst snd]. rewrite Hq.
  by rewrite decide_False by done.
Qed.

Lemma git_expansion_stops_at_first_failure_witness :
  _expand_dir scenario_A (of_string "src") "python" true
  = ([EvResolve (of_string "src");
      EvSpawn ["git"; "ls-files"; "*.py"] (Some (of_string "/home/user/project/src"));
      EvResolve (of_string "src")],
     Raise (NotGitProjectError "/home/user/project/src is not a git repository.")).
Proof.
  rewrite (git_expansion_stops_at_first_failure scenario_A (of_string "src")
             "python" "py" ["pyi"] 128 EmptyString); compute_done.
Defined.
